(** * tx_tools: the tone scheduler of pulse_beep and the stream mixer of sdr_mix

    A shallow embedding of the two [main] functions of
    [src/pulse_beep.c] and [src/sdr_mix.c]:

    - [PulseBeep]: the seeded initialisation of the beep countdowns, the
      selection loop, the two tone appends and the countdown update, run
      under the loop guard [tones_idx < 30 - 2];
    - [BeepOptions]: the options of pulse_beep that fill [beeps] and set
      the seed;
    - [SdrMix]: the read / convert / mix / convert / write loop over a small
      model of the file descriptors it reads from and writes to;
    - [MixMain]: the options of sdr_mix that fill [inputs], the opening of
      the files, and the run of the loop on them.

    C [int] values are integers of [Z] together with the two's complement
    wrap-around of the 32-bit operations; [double] gains are the binary64
    floats of the kernel. *)

From Stdlib Require Import ZArith Lia Bool.
From Stdlib Require Import Strings.Byte.
From Stdlib Require Import Floats.PrimFloat Floats.FloatOps Floats.SpecFloat.
From Stdlib Require Import Floats.FloatAxioms.
From Stdlib Require Import Numbers.Cyclic.Int63.Uint63.
From Stdlib Require Import Strings.String.
From stdpp Require Import base tactics option list strings gmap.

Local Open Scope Z_scope.

(* ===================================================================== *)
(** ** C integer arithmetic *)
(* ===================================================================== *)

Module CInt.

Definition INT_MAX : Z := 2147483647.
Definition INT_MIN : Z := -2147483648.

(** The values of type [int]. *)
Definition in_int (z : Z) : Prop := INT_MIN <= z <= INT_MAX.

(** Reduction of a mathematical result to 32 bits, two's complement: the
    narrowing cast [(int)], and the wrap-around of [+], [-] and [*].  C
    leaves the overflow of these three undefined; the model gives it the
    value that two's complement hardware produces, and the properties below
    say where the result is the exact one. *)
Definition wrap_int (z : Z) : Z := (z + 2147483648) mod 4294967296 - 2147483648.

Definition int_add (a b : Z) : Z := wrap_int (a + b).
Definition int_sub (a b : Z) : Z := wrap_int (a - b).
Definition int_mul (a b : Z) : Z := wrap_int (a * b).

End CInt.

(* ===================================================================== *)
(** ** pulse_beep: the tone scheduler *)
(* ===================================================================== *)

Module PulseBeep.
Import CInt.

(** [typedef struct beep { int freq; int att; int len; int intv; int next; }]. *)
Record beep_t : Type := Beep {
  freq : Z;
  att : Z;
  len : Z;
  intv : Z;
  next : Z;
}.

(** Modelled from the spec: [tone_t] is declared in pulse_text.h, which is
    not among the sources; a tone is a frequency in Hz (0 is silence), a
    level in dB and a duration in microseconds.  The fields hold the values
    of the [int] expressions that [main] stores in them. *)
Record tone_t : Type := Tone {
  hz : Z;
  db : Z;
  us : Z;
}.

Definition set_next (p : beep_t) (n : Z) : beep_t :=
  {| freq := freq p; att := att p; len := len p; intv := intv p; next := n |}.

(** [tone_t tones[30] = {0}]. *)
Definition TONES : nat := 30.
Definition zero_tone : tone_t := {| hz := 0; db := 0; us := 0 |}.

(** The start silence, [(tone_t){.hz = 0, .db = -99, .us = 500 * 1000}]. *)
Definition start_silence : tone_t := {| hz := 0; db := -99; us := 500 * 1000 |}.

(** The silence before a beep, [(tone_t){.hz = 0, .db = -99, .us = gap * 1000}]. *)
Definition silence (gap : Z) : tone_t :=
  {| hz := 0; db := -99; us := int_mul gap 1000 |}.

(** The beep itself,
    [(tone_t){.hz = beep->freq, .db = beep->att, .us = beep->len * 1000}]. *)
Definition beep_tone (b : beep_t) : tone_t :=
  {| hz := freq b; db := att b; us := int_mul (len b) 1000 |}.

(** The state of [main] from the start silence on: the configured
    sources [beeps[0 .. beeps_idx]], the tone array and its fill index. *)
Record state : Type := State {
  beeps : list beep_t;
  tones : list tone_t;
  tones_idx : nat;
}.

(** The tones appended so far. *)
Definition produced (st : state) : list tone_t := take (tones_idx st) (tones st).

(** The selection loop (lines 251-259): [gap] starts at [INT_MAX], [beep]
    at [NULL]; a source replaces the candidate only when its countdown is
    strictly below [gap].  The pointer is the index of the source. *)
Fixpoint find_next_from (i : nat) (ps : list beep_t) (gap : Z) (beep : option nat)
  : Z * option nat :=
  match ps with
  | [] => (gap, beep)
  | p :: ps' =>
      if next p <? gap
      then find_next_from (S i) ps' (next p) (Some i)
      else find_next_from (S i) ps' gap beep
  end.

Definition find_next (ps : list beep_t) : Z * option nat :=
  find_next_from 0 ps INT_MAX None.

(** The countdown update of one source (lines 278-282). *)
Definition advance (gap : Z) (p : beep_t) : beep_t :=
  if next p <=? gap then set_next p (intv p) else set_next p (int_sub (next p) gap).

(** One iteration of the main loop (lines 250-283).  [None] is the
    dereference of [beep] while it is still [NULL]. *)
Definition sched_step (st : state) : option state :=
  let '(gap, beep) := find_next (beeps st) in
  match beep ≫= (λ i, beeps st !! i) with
  | None => None
  | Some b =>
      let tones1 := <[tones_idx st := silence gap]> (tones st) in
      let tones2 := <[S (tones_idx st) := beep_tone b]> tones1 in
      Some {| beeps := advance gap <$> beeps st;
              tones := tones2;
              tones_idx := S (S (tones_idx st)) |}
  end.

(** The loop guard, [tones_idx < 30 - 2]. *)
Definition guard (st : state) : bool := (tones_idx st <? TONES - 2)%nat.

Inductive outcome : Type :=
| Finished (st : state)   (* the loop was left by its guard *)
| Fault                   (* NULL was dereferenced *)
| OutOfFuel.

Fixpoint sched_loop (fuel : nat) (st : state) : outcome :=
  if guard st then
    match fuel with
    | O => OutOfFuel
    | S fuel' =>
        match sched_step st with
        | None => Fault
        | Some st' => sched_loop fuel' st'
        end
    end
  else Finished st.

Section Seeded.
(** The C library's generator: [RAND_MAX], and the value that the
    [k]-th call of [rand()] returns after [srand(rand_seed)]. *)
Variable RAND_MAX : Z.
Variable rand : nat -> Z.

(** [(int)((long long)p->intv * rand() / RAND_MAX) + 1] (line 246): the
    product and the quotient, which truncates toward zero, are taken in
    [long long]. *)
Definition first_next (interval r : Z) : Z :=
  int_add (wrap_int ((interval * r) ÷ RAND_MAX)) 1.

(** Lines 244-247: the sources draw in list order. *)
Definition init_beeps (bs : list beep_t) : list beep_t :=
  imap (λ i p, set_next p (first_next (intv p) (rand i))) bs.

(** The state on entry to the main loop (lines 234-247). *)
Definition init_state (bs : list beep_t) : state :=
  {| beeps := init_beeps bs;
     tones := <[0%nat := start_silence]> (replicate TONES zero_tone);
     tones_idx := 1 |}.

(** The scheduler of [main]: the sources as the options left them. *)
Definition schedule (fuel : nat) (bs : list beep_t) : outcome :=
  sched_loop fuel (init_state bs).

(** The states that the main loop passes through. *)
Inductive reachable (bs : list beep_t) : state -> Prop :=
| reach_init : reachable bs (init_state bs)
| reach_step st st' :
    reachable bs st -> guard st = true -> sched_step st = Some st' ->
    reachable bs st'.

End Seeded.

(** A source as the options [-f -a -l -i] give it; [next] is still 0. *)
Definition source (f a l i : Z) : beep_t :=
  {| freq := f; att := a; len := l; intv := i; next := 0 |}.

(** The options of the run in the file's last comment:
    [-f 159M -l 14 -i 4000 -f 159.5M -l 14 -i 3800 -f 158M -l 14 -i 3500]. *)
Definition three_beeps : list beep_t :=
  [source 159000000 0 14 4000; source 159500000 0 14 3800; source 158000000 0 14 3500].

(** *** What the properties below say of a state *)

(** What an iteration leaves of the source [p]: every field but the
    countdown is kept; a countdown of at most [gap] becomes the source's
    own interval, a larger one loses [gap] by the subtraction of [int],
    which is the exact difference whenever that is an [int]. *)
Definition advanced (gap : Z) (p q : beep_t) : Prop :=
  freq q = freq p ∧ att q = att p ∧ len q = len p ∧ intv q = intv p
  ∧ (next p <= gap → next q = intv p)
  ∧ (gap < next p →
       next q = int_sub (next p) gap ∧ (in_int (next p - gap) → next q = next p - gap)).

(** An iteration appends the pair for the selected source [b], whose
    countdown is [gap], and then updates every source by [advanced]. *)
Definition iteration_post (st st' : state) : Prop :=
  ∃ gap i b,
    find_next (beeps st) = (gap, Some i) ∧ beeps st !! i = Some b ∧ next b = gap
    ∧ tones st' = <[S (tones_idx st) := beep_tone b]>
                    (<[tones_idx st := silence gap]> (tones st))
    ∧ length (beeps st') = length (beeps st)
    ∧ ∀ j p, beeps st !! j = Some p → ∃ q, beeps st' !! j = Some q ∧ advanced gap p q.

(** A running source [p] is the configured source [s] with another countdown. *)
Definition same_source (s p : beep_t) : Prop :=
  freq p = freq s ∧ att p = att s ∧ len p = len s ∧ intv p = intv s.

(** The two tones of one iteration: the silence of [gap] milliseconds and
    the beep of the source. *)
Definition pair_tones (gs : Z * beep_t) : list tone_t :=
  [silence gs.1; beep_tone gs.2].

Definition loop_inv (bs : list beep_t) (st : state) : Prop :=
  length (tones st) = TONES
  ∧ Forall2 same_source bs (beeps st)
  ∧ ∃ pairs : list (Z * beep_t),
      produced st = start_silence :: (pairs ≫= pair_tones)
      ∧ tones_idx st = S (2 * length pairs)
      ∧ (length pairs ≤ 14)%nat
      ∧ Forall (λ gs, gs.2 ∈ bs) pairs.

(** The tones appended so far, for the sources [bs], field by field: the
    first is the silence of 0 Hz, -99 dB and 500000 us; there are
    [tones_idx] of them, an odd number of at most the 30 of the array;
    after the first they are whole pairs, a silence of 0 Hz and -99 dB
    followed by the beep of a configured source, with its frequency, its
    attenuation and its length in us; so that the sequence, once an
    iteration has run, ends with such a pair; and when the guard fails
    there are 29. *)
Definition well_formed_sequence (bs : list beep_t) (st : state) : Prop :=
  produced st !! 0%nat = Some {| hz := 0; db := -99; us := 500000 |}
  ∧ length (produced st) = tones_idx st
  ∧ (length (produced st) ≤ 30)%nat
  ∧ (∃ n, tones_idx st = S (2 * n))
  ∧ (∀ k, (2 * k + 2 < tones_idx st)%nat →
       ∃ gap s, s ∈ bs
         ∧ produced st !! (2 * k + 1)%nat
           = Some {| hz := 0; db := -99; us := int_mul gap 1000 |}
         ∧ produced st !! (2 * k + 2)%nat
           = Some {| hz := freq s; db := att s; us := int_mul (len s) 1000 |})
  ∧ ((1 < tones_idx st)%nat →
       ∃ pre gap s, s ∈ bs
         ∧ produced st
           = pre ++ [{| hz := 0; db := -99; us := int_mul gap 1000 |};
                     {| hz := freq s; db := att s; us := int_mul (len s) 1000 |}])
  ∧ (guard st = false → tones_idx st = 29%nat).

(** For a generator in its range, intervals of 0 to [INT_MAX - 2] ms and at
    least one source, the loop is left, with a sequence of 29 tones that
    is well formed and closes with a whole pair. *)
Definition leaves_whole_pairs (RAND_MAX : Z) (rand : nat → Z) (bs : list beep_t)
           (fuel : nat) : Prop :=
  ∃ st pre gap s,
    schedule RAND_MAX rand fuel bs = Finished st
    ∧ well_formed_sequence bs st
    ∧ length (produced st) = 29%nat
    ∧ s ∈ bs
    ∧ produced st
      = pre ++ [{| hz := 0; db := -99; us := int_mul gap 1000 |};
                {| hz := freq s; db := att s; us := int_mul (len s) 1000 |}].

(** Countdowns and intervals from which no countdown can reach [INT_MAX]. *)
Definition countdowns_ok (ps : list beep_t) : Prop :=
  Forall (λ p, 0 <= next p < INT_MAX ∧ 0 <= intv p < INT_MAX) ps.

(** The timeline of one source of frequency [F], attenuation [A], length
    [L] ms and interval [I] ms, as the code produces it: 29 tones, the
    start silence first; every beep is [F] Hz, [A] dB and [L * 1000] us;
    from the second pair on the silence lasts [I * 1000] us, so that a
    (silence, beep) pair lasts [(I + L) * 1000] us. *)
Definition single_beep_timeline (F A L I : Z) (st : state) : Prop :=
  tones_idx st = 29%nat
  ∧ tones st !! 0%nat = Some {| hz := 0; db := -99; us := 500000 |}
  ∧ (∀ k, (k < 14)%nat →
       tones st !! (2 * k + 2)%nat = Some {| hz := F; db := A; us := L * 1000 |})
  ∧ (∀ k, (1 ≤ k < 14)%nat →
       ∃ s b, tones st !! (2 * k + 1)%nat = Some s ∧ tones st !! (2 * k + 2)%nat = Some b
         ∧ s = {| hz := 0; db := -99; us := I * 1000 |}
         ∧ us s + us b = (I + L) * 1000).

(** The same timeline as the claim has it: from the second pair on, a
    (silence, beep) pair lasts [I * 1000] us. *)
Definition single_beep_period (F A L I : Z) (st : state) : Prop :=
  tones_idx st = 29%nat
  ∧ tones st !! 0%nat = Some {| hz := 0; db := -99; us := 500000 |}
  ∧ (∀ k, (k < 14)%nat →
       tones st !! (2 * k + 2)%nat = Some {| hz := F; db := A; us := L * 1000 |})
  ∧ (∀ k, (1 ≤ k < 14)%nat →
       ∃ s b, tones st !! (2 * k + 1)%nat = Some s ∧ tones st !! (2 * k + 2)%nat = Some b
         ∧ us s + us b = I * 1000).

(** *** Further statements about the scheduler *)


(** A generator that keeps to [0 .. RAND_MAX] and intervals of 0 to
    [INT_MAX - 2] ms. *)
Definition sane_config (RAND_MAX : Z) (rand : nat → Z) (bs : list beep_t) : Prop :=
  0 < RAND_MAX ∧ (∀ k, 0 <= rand k <= RAND_MAX)
  ∧ Forall (λ s, 0 <= intv s <= INT_MAX - 2) bs.

(** A countdown between 0 and the interval plus 1, for an interval of 0
    to [INT_MAX - 2] ms. *)
Definition bounded_source (p : beep_t) : Prop :=
  (0 <= next p <= intv p + 1) ∧ (0 <= intv p <= INT_MAX - 2).

(** The iteration from [st] to [st'] for the sources [bs] appended a
    silence of [gap] ms, which is not negative and exceeds no source's
    interval by more than 1 ms. *)
Definition appends_bounded_silence (bs : list beep_t) (st st' : state) : Prop :=
  ∃ gap b, produced st' = produced st ++ [silence gap; beep_tone b]
    ∧ 0 <= gap ∧ ∀ s, s ∈ bs → gap <= intv s + 1.



(** Two sources, the first of interval 0, after their first iteration. *)
Definition starved_example : state :=
  {| beeps := [Beep 1000 0 14 0 0; Beep 2000 0 14 500 116];
     tones := <[2%nat := beep_tone (source 1000 0 14 0)]>
                (<[1%nat := silence 1]>
                   (<[0%nat := start_silence]> (replicate TONES zero_tone)));
     tones_idx := 3 |}.

(** The sources at [i] and [j] have the same countdown and the same
    interval. *)
Definition in_step (i j : nat) (ps : list beep_t) : Prop :=
  ∃ p p', ps !! i = Some p ∧ ps !! j = Some p'
    ∧ next p = next p' ∧ intv p = intv p'.

End PulseBeep.

(* ===================================================================== *)
(** ** pulse_beep: the options *)
(* ===================================================================== *)

Module BeepOptions.
Import CInt.

(** [beep_t beeps[32] = {0}]. *)
Definition BEEPS : nat := 32.
Definition zero_beep : PulseBeep.beep_t := PulseBeep.source 0 0 0 0.

(** What [getopt] returns for the option string of line 131, with the
    value that [atoi_metric] or [atoi] has read from the argument.  The
    options [-v -s -n -N -g -W -G -b -w -M] set the verbosity, the renderer's
    configuration and the output name; [-r] and [-t] take an argument but
    have no case, like a character outside the option string. *)
Inductive option_t : Type :=
| Opt_h
| Opt_V
| Opt_f (v : Z)
| Opt_a (v : Z)
| Opt_l (v : Z)
| Opt_i (v : Z)
| Opt_S (v : Z)
| Opt_render
| Opt_unknown.

(** The variables of [main] that the scheduler reads. *)
Record args : Type := Args {
  beeps : list PulseBeep.beep_t;
  beeps_idx : nat;
  rand_seed : Z;
}.

Inductive parsed : Type :=
| Parsed (a : args)
| Exit (code : Z)     (* usage(0), exit(0), usage(1) *)
| OutOfArray.         (* beeps[beeps_idx] with beeps_idx = 32 *)

(** [beep_t beeps[32] = {0}; unsigned beeps_idx = 0; unsigned rand_seed = 1]. *)
Definition initial : args :=
  {| beeps := replicate BEEPS zero_beep; beeps_idx := 0; rand_seed := 1 |}.

Definition set_freq (v : Z) (p : PulseBeep.beep_t) : PulseBeep.beep_t :=
  {| PulseBeep.freq := v; PulseBeep.att := PulseBeep.att p; PulseBeep.len := PulseBeep.len p;
     PulseBeep.intv := PulseBeep.intv p; PulseBeep.next := PulseBeep.next p |}.
Definition set_att (v : Z) (p : PulseBeep.beep_t) : PulseBeep.beep_t :=
  {| PulseBeep.freq := PulseBeep.freq p; PulseBeep.att := v; PulseBeep.len := PulseBeep.len p;
     PulseBeep.intv := PulseBeep.intv p; PulseBeep.next := PulseBeep.next p |}.
Definition set_len (v : Z) (p : PulseBeep.beep_t) : PulseBeep.beep_t :=
  {| PulseBeep.freq := PulseBeep.freq p; PulseBeep.att := PulseBeep.att p; PulseBeep.len := v;
     PulseBeep.intv := PulseBeep.intv p; PulseBeep.next := PulseBeep.next p |}.
Definition set_intv (v : Z) (p : PulseBeep.beep_t) : PulseBeep.beep_t :=
  {| PulseBeep.freq := PulseBeep.freq p; PulseBeep.att := PulseBeep.att p;
     PulseBeep.len := PulseBeep.len p; PulseBeep.intv := v; PulseBeep.next := PulseBeep.next p |}.

(** [beeps[idx].field = v], with [beeps_idx] set to [idx]. *)
Definition assign (idx : nat) (f : PulseBeep.beep_t → PulseBeep.beep_t) (a : args) : parsed :=
  match beeps a !! idx with
  | None => OutOfArray
  | Some p => Parsed {| beeps := <[idx := f p]> (beeps a); beeps_idx := idx;
                        rand_seed := rand_seed a |}
  end.

(** The conversion [(unsigned)] of an [int]. *)
Definition to_unsigned (z : Z) : Z := z mod 4294967296.

(** The switch (lines 132-186). *)
Definition handle (o : option_t) (a : args) : parsed :=
  match o with
  | Opt_h => Exit 0
  | Opt_V => Exit 0
  | Opt_f v =>
      match beeps a !! beeps_idx a with
      | None => OutOfArray
      | Some p =>
          let idx := if PulseBeep.freq p =? 0 then beeps_idx a else S (beeps_idx a) in
          assign idx (set_freq v) a
      end
  | Opt_a v => assign (beeps_idx a) (set_att v) a
  | Opt_l v => assign (beeps_idx a) (set_len v) a
  | Opt_i v => assign (beeps_idx a) (set_intv v) a
  | Opt_S v => Parsed {| beeps := beeps a; beeps_idx := beeps_idx a;
                         rand_seed := to_unsigned v |}
  | Opt_render => Parsed a
  | Opt_unknown => Exit 1
  end.

(** The loop over [getopt] (lines 131-187). *)
Fixpoint getopt_loop (os : list option_t) (a : args) : parsed :=
  match os with
  | [] => Parsed a
  | o :: os' =>
      match handle o a with
      | Parsed a' => getopt_loop os' a'
      | r => r
      end
  end.

(** Lines 123-192: the options, then [usage(1)] when arguments are left
    over ([argc > optind]). *)
Definition parse (os : list option_t) (extra_arguments : bool) : parsed :=
  match getopt_loop os initial with
  | Parsed a => if extra_arguments then Exit 1 else Parsed a
  | r => r
  end.

(** The sources that the loops of [main] run over, [beeps[0 .. beeps_idx]]. *)
Definition configured (a : args) : list PulseBeep.beep_t :=
  take (S (beeps_idx a)) (beeps a).

(** Lines 123-284 for a generator that [srand] seeds: the options, then
    the scheduler over the configured sources.  [None] is an exit or an
    access outside [beeps]. *)
Definition pulse_beep (RAND_MAX : Z) (rand_after : Z → nat → Z) (fuel : nat)
           (os : list option_t) : option PulseBeep.outcome :=
  match parse os false with
  | Parsed a =>
      Some (PulseBeep.schedule RAND_MAX (rand_after (rand_seed a)) fuel (configured a))
  | _ => None
  end.

(** *** Statements about the options *)

(** The options that describe one source: [-f F -a A -l L -i I]. *)
Definition group (s : PulseBeep.beep_t) : list option_t :=
  [Opt_f (PulseBeep.freq s); Opt_a (PulseBeep.att s); Opt_l (PulseBeep.len s);
   Opt_i (PulseBeep.intv s)].

(** A source as options can describe it, with a frequency other than 0. *)
Definition audible (s : PulseBeep.beep_t) : Prop :=
  PulseBeep.freq s ≠ 0 ∧ PulseBeep.next s = 0.

(** The number of [-f] options. *)
Fixpoint count_f (os : list option_t) : nat :=
  match os with
  | [] => 0
  | Opt_f _ :: os' => S (count_f os')
  | _ :: os' => count_f os'
  end.

(** The variables with [beeps_idx] at the source [x], which the sources
    [pre] precede and the slots [rest] follow. *)
Definition at_slot (seed : Z) (pre : list PulseBeep.beep_t) (x : PulseBeep.beep_t)
           (rest : list PulseBeep.beep_t) : args :=
  {| beeps := pre ++ x :: rest; beeps_idx := length pre; rand_seed := seed |}.

(** The slots in use: up to [beeps_idx], and one more once the source at
    [beeps_idx] has a frequency. *)
Definition used (a : args) : nat :=
  match beeps a !! beeps_idx a with
  | Some p => if PulseBeep.freq p =? 0 then beeps_idx a else S (beeps_idx a)
  | None => S (beeps_idx a)
  end.

(** The options were handled inside the array, and left at least one and
    at most [max 1 n] sources, the array being whole. *)
Definition within_array (n : nat) (r : parsed) : Prop :=
  match r with
  | Parsed a => length (beeps a) = BEEPS ∧ (beeps_idx a < BEEPS)%nat
                ∧ (1 ≤ length (configured a) ≤ Nat.max 1 n)%nat
  | Exit _ => True
  | OutOfArray => False
  end.

End BeepOptions.

(* ===================================================================== *)
(** ** sdr_mix: the stream mixer *)
(* ===================================================================== *)

Module SdrMix.

(** *** Samples *)

(** The value of a [uint8_t] sample. *)
Definition u8 (b : byte) : Z := Z.of_N (Byte.to_N b).

(** The narrowing cast [(int8_t)] of an [int]: reduction to 8 bits, two's
    complement. *)
Definition to_int8 (z : Z) : Z := (z + 128) mod 256 - 128.

(** The narrowing cast [(uint8_t)] of an [int]: reduction modulo 256. *)
Definition to_uint8 (z : Z) : byte :=
  match Byte.of_N (Z.to_N (z mod 256)) with
  | Some b => b
  | None => Byte.x00
  end.

(** The conversion of an [int] operand to [double], which is exact. *)
Definition double_of_int (z : Z) : float :=
  if z <? 0 then PrimFloat.opp (PrimFloat.of_uint63 (Uint63.of_Z (- z)))
  else PrimFloat.of_uint63 (Uint63.of_Z z).

(** The conversion of a [double] to a 32-bit [int], through which the
    narrowing casts of lines 172 and 192 go: the integral part, toward
    zero.  C defines the cast only while the integral part fits the target
    type; up to the limits of [int] the 8 bits stored are those of the
    integral part, and for an integral part outside [int], an infinity or
    a NaN the conversion returns [INT_MIN], the 8 low bits of which are 0. *)
Definition trunc_double (f : float) : Z :=
  match Prim2SF f with
  | S754_zero _ => 0
  | S754_finite s m e =>
      let a := match e with
               | Z0 => Zpos m
               | Zpos p => Zpos m * 2 ^ Zpos p
               | Zneg p => Zpos m / 2 ^ Zpos p
               end in
      let v := if s then - a else a in
      if (CInt.INT_MIN <=? v) && (v <=? CInt.INT_MAX) then v else CInt.INT_MIN
  | _ => CInt.INT_MIN
  end.

(** [(int8_t)(x * gain)] for the [int] [x]: the product is taken in
    [double], converted, and reduced to 8 bits. *)
Definition attenuate (x : Z) (g : float) : Z :=
  to_int8 (trunc_double (PrimFloat.mul (double_of_int x) g)).

(** A gain below 2^24 in absolute value: its product with a sample, which
    is -128 to 127, is inside [int]. *)
Definition inside_int (g : float) : Prop :=
  PrimFloat.ltb (PrimFloat.abs g) 16777216 = true.

(** *** The descriptors *)

(** What a descriptor still has to deliver: runs of bytes, each of which
    [read] hands out in pieces of at most the requested count, and failing
    calls.  A file is one run of bytes; when nothing is left, [read] returns 0. *)
Inductive segment : Type :=
| Data (bs : list byte)
| ReadError.

(** The result of [read]: the bytes stored in the buffer, whose number it
    returns, or a negative value. *)
Inductive read_result : Type :=
| RBytes (bs : list byte)
| RFail.

Definition sys_read (count : nat) (inp : list segment) : read_result * list segment :=
  match inp with
  | [] => (RBytes [], [])
  | ReadError :: rest => (RFail, rest)
  | Data bs :: rest =>
      if (length bs <=? count)%nat then (RBytes bs, rest)
      else (RBytes (take count bs), Data (drop count bs) :: rest)
  end.

(** The calls and diagnostics of a run, in order. *)
Inductive event : Type :=
| EvRead (fd : nat) (r : read_result)     (* read(fd, blk_cu8, frame_size) *)
| EvWrite (bs : list byte) (ret : Z)      (* write(w_fd, blk_cu8, write_size) and its result *)
| EvFailedRead (i : nat)                  (* "Failed to read input" for inputs[i] *)
| EvFailedWrite                           (* "Failed to write output" *)
| EvDone.                                 (* "Done." *)

(** The open descriptors: the inputs by descriptor number, the results
    that the coming calls of [write] on the output return (a call beyond
    them writes all its bytes), and the events so far. *)
Record world : Type := World {
  ins : list (list segment);
  wrets : list Z;
  trace : list event;
}.

Definition log (e : event) (w : world) : world :=
  {| ins := ins w; wrets := wrets w; trace := trace w ++ [e] |}.

Definition do_read (fd count : nat) (w : world) : read_result * world :=
  match ins w !! fd with
  | None => (RFail, log (EvRead fd RFail) w)
  | Some inp =>
      let '(r, inp') := sys_read count inp in
      (r, log (EvRead fd r) {| ins := <[fd := inp']> (ins w); wrets := wrets w; trace := trace w |})
  end.

Definition do_write (bs : list byte) (w : world) : Z * world :=
  let ret := match wrets w with [] => Z.of_nat (length bs) | r :: _ => r end in
  (ret, log (EvWrite bs ret) {| ins := ins w; wrets := tail (wrets w); trace := trace w |}).

(** *** The mixer *)

(** [typedef struct input { int fd; char *path; double gain; }]; the
    diagnostics name an input by its index instead of its path. *)
Record input_t : Type := Input {
  fd : nat;
  gain : float;
}.

(** Lines 164-174: the first input is converted, and attenuated unless its
    gain is 1.0. *)
Definition convert_first (g : float) (blk_cu8 : list byte) : list Z :=
  if PrimFloat.eqb g 1
  then (λ b, to_int8 (u8 b - 128)) <$> blk_cu8
  else (λ b, attenuate (u8 b - 128) g) <$> blk_cu8.

(** Lines 190-194: [blk_cs8[k] += (int8_t)((blk_cu8[k] - 128) * gain)] for
    the [rn] bytes read. *)
Fixpoint mix_into (g : float) (blk_cs8 : list Z) (blk_cu8 : list byte) : list Z :=
  match blk_cs8, blk_cu8 with
  | s :: cs, b :: bs => to_int8 (s + attenuate (u8 b - 128) g) :: mix_into g cs bs
  | _, _ => blk_cs8
  end.

(** Lines 180-195, the loop over [inputs[i]] from [i] on.  The [break] of
    line 184 leaves this loop. *)
Fixpoint mix_next (frame_size i : nat) (rest : list input_t)
         (blk_cs8 : list Z) (write_size : nat) (w : world) : list Z * nat * world :=
  match rest with
  | [] => (blk_cs8, write_size, w)
  | inp :: rest' =>
      let '(r, w1) := do_read (fd inp) frame_size w in
      match r with
      | RFail => (blk_cs8, write_size, log (EvFailedRead i) w1)
      | RBytes blk =>
          mix_next frame_size (S i) rest'
                   (mix_into (gain inp) blk_cs8 blk)
                   (Nat.max write_size (length blk)) w1
      end
  end.

(** Lines 198-200: [blk_cu8[k] = (uint8_t)(blk_cs8[k] + 128)]. *)
Definition convert_back (blk_cs8 : list Z) : list byte :=
  (λ s, to_uint8 (s + 128)) <$> blk_cs8.

Inductive flow : Type := Continue | Break.

(** One iteration of [while (1)] (lines 155-212) for [inputs[0] = first]
    and [inputs[1 .. inputs_idx] = rest]. *)
Definition mix_block (frame_size : nat) (first : input_t) (rest : list input_t)
           (w : world) : flow * world :=
  let '(r, w1) := do_read (fd first) frame_size w in
  match r with
  | RFail => (Break, log (EvFailedRead 0) w1)
  | RBytes blk =>
      let r1 := length blk in
      let blk_cs8 := convert_first (gain first) blk ++ replicate (frame_size - r1) 0 in
      let '(blk_cs8, write_size, w2) := mix_next frame_size 1 rest blk_cs8 r1 w1 in
      let '(ret, w3) := do_write (convert_back (take write_size blk_cs8)) w2 in
      if negb (ret =? Z.of_nat write_size) then (Break, log EvFailedWrite w3)
      else if negb (write_size =? frame_size)%nat then (Break, log EvDone w3)
      else (Continue, w3)
  end.

Inductive status : Type :=
| Exited     (* the loop was left; main closes the descriptors and returns *)
| Running.   (* the loop is still iterating when the fuel is spent *)

Fixpoint mix_loop (fuel frame_size : nat) (first : input_t) (rest : list input_t)
         (w : world) : status * world :=
  match fuel with
  | O => (Running, w)
  | S fuel' =>
      match mix_block frame_size first rest w with
      | (Break, w') => (Exited, w')
      | (Continue, w') => mix_loop fuel' frame_size first rest w'
      end
  end.

(** The bytes passed to [write], and the bytes that [read] delivered. *)
Definition written (tr : list event) : list byte :=
  tr ≫= (λ e, match e with EvWrite bs _ => bs | _ => [] end).

Definition delivered (tr : list event) : list byte :=
  tr ≫= (λ e, match e with EvRead _ (RBytes bs) => bs | _ => [] end).

(** Descriptors as [main] finds them after opening: nothing logged yet. *)
Definition opened (inputs : list (list segment)) (write_results : list Z) : world :=
  {| ins := inputs; wrets := write_results; trace := [] |}.

Definition unity (d : nat) : input_t := {| fd := d; gain := 1 |}.

(** *** What the properties below say of a run *)

Definition file_world (bs : list byte) (tr : list event) : world :=
  {| ins := [[Data bs]]; wrets := []; trace := tr |}.

Definition ended_world (tr : list event) : world :=
  {| ins := [[]]; wrets := []; trace := tr |}.

(** The run on one file of the bytes [bs] at gain 1.0, every call of
    [write] being complete: the loop is left after "Done.", the reads have
    delivered the file and the writes have passed it on, whole and in
    order. *)
Definition copies_the_file (frame_size : nat) (bs : list byte) : Prop :=
  ∃ fuel w',
    mix_loop fuel frame_size {| fd := 0; gain := 1 |} [] (opened [[Data bs]] [])
    = (Exited, w')
    ∧ written (trace w') = bs ∧ delivered (trace w') = bs
    ∧ last (trace w') = Some EvDone.

(** The block written has the length of the second input's read, and from
    the end of the first input's read on it is the second input's bytes. *)
Definition tail_of_second (p s out : list byte) : Prop :=
  length out = length s
  ∧ ∀ k, (length p ≤ k < length s)%nat → out !! k = s !! k.

Definition is_call (e : event) : bool :=
  match e with
  | EvRead _ _ | EvWrite _ _ => true
  | _ => false
  end.

(** What the claim asks of a run: once the read of a second or later
    input has failed, no call of [read] or [write] follows. *)
Definition aborts_on_failed_read (tr : list event) : Prop :=
  ∀ pre i post, tr = pre ++ EvFailedRead (S i) :: post →
                Forall (λ e, is_call e = false) post.

(** Every input of the run, read in order, returns 0 bytes; the result is
    the state of the descriptors after these reads. *)
Fixpoint reads_nothing (frame_size : nat) (inputs : list input_t) (w : world)
  : option world :=
  match inputs with
  | [] => Some w
  | c :: inputs' =>
      match do_read (fd c) frame_size w with
      | (RBytes [], w1) => reads_nothing frame_size inputs' w1
      | _ => None
      end
  end.

(** The iteration in which every read returns 0 bytes: one read per
    input, in order, a write of no byte, "Done.", and the loop is left. *)
Definition completes_at_end (frame_size : nat) (first : input_t) (rest : list input_t)
           (w : world) : Prop :=
  ∃ w', mix_block frame_size first rest w = (Break, w')
    ∧ trace w' = trace w ++ ((λ c, EvRead (fd c) (RBytes [])) <$> (first :: rest))
                         ++ [EvWrite [] 0; EvDone]
    ∧ ∀ fuel, mix_loop (S fuel) frame_size first rest w = (Exited, w').

(** *** Two files *)

(** What [read] has of a file of which the bytes [bs] have not been read:
    the bytes in one run, or nothing at all once its end was reached. *)
Definition file_rest (bs : list byte) (inp : list segment) : Prop :=
  inp = [Data bs] ∨ (inp = [] ∧ bs = []).

(** The descriptors 0 and 1 on two files, every write being complete. *)
Definition two_files (ia ib : list segment) (tr : list event) : world :=
  {| ins := [ia; ib]; wrets := []; trace := tr |}.

(** Line 167 or line 172 for one byte of the first input. *)
Definition first_sample (g : float) (b : byte) : Z :=
  if PrimFloat.eqb g 1 then to_int8 (u8 b - 128) else attenuate (u8 b - 128) g.

(** The sample that [blk_cs8] holds at an offset where the first input has
    the byte [x] and the second the byte [y], if they have one there: the
    first input's sample or the 0 of line 177, and line 192 for the second. *)
Definition mixed_sample (g0 g1 : float) (x y : option byte) : Z :=
  let s := match x with Some b => first_sample g0 b | None => 0 end in
  match y with
  | Some b => to_int8 (s + attenuate (u8 b - 128) g1)
  | None => s
  end.

(** Two files mixed offset by offset, as long as the longer of them. *)
Definition mix_files (g0 g1 : float) (a b : list byte) : list byte :=
  (λ k, to_uint8 (mixed_sample g0 g1 (a !! k) (b !! k) + 128))
    <$> seq 0 (Nat.max (length a) (length b)).

(** The run of the mixer on the files [a] and [b] with the gains [g0] and
    [g1] in blocks of [frame_size] bytes ends with "Done." and has written
    [out]. *)
Definition mixes_to (frame_size : nat) (g0 g1 : float) (a b out : list byte) : Prop :=
  ∃ fuel w',
    mix_loop fuel frame_size {| fd := 0; gain := g0 |} [{| fd := 1; gain := g1 |}]
             (opened [[Data a]; [Data b]] []) = (Exited, w')
    ∧ written (trace w') = out ∧ last (trace w') = Some EvDone.

(** The bytes written for two inputs of gain 1.0: where both files have a
    byte, the sum of the two samples reduced to 8 bits, that is the sum of
    the two bytes less 128, modulo 256; where one file has ended, the
    other file's byte. *)
Definition sum_modulo_256 (a b out : list byte) : Prop :=
  length out = Nat.max (length a) (length b)
  ∧ ∀ k, out !! k = match a !! k, b !! k with
                    | Some x, Some y => Some (to_uint8 (u8 x + u8 y - 128))
                    | Some x, None => Some x
                    | None, Some y => Some y
                    | None, None => None
                    end.

(** The byte of a sample of value 0. *)
Definition zero_byte : byte := Byte.x80.

(** The number of calls of [write]. *)
Definition is_write (e : event) : bool :=
  match e with
  | EvWrite _ _ => true
  | _ => false
  end.

Definition write_calls (tr : list event) : nat := length (List.filter is_write tr).

End SdrMix.

(* ===================================================================== *)
(** ** sdr_mix: the options and the files *)
(* ===================================================================== *)

Module MixMain.

(** [input_t inputs[32] = {0}]: the path and the gain of an input, as the
    options leave them; [fd] is set when the input is opened. *)
Definition INPUTS : nat := 32.

Record input_t : Type := Input {
  path : option string;
  gain : float;
}.

Definition zero_input : input_t := {| path := None; gain := 0 |}.

(** What [getopt] returns for the option string of line 92, with the
    value that [atou_metric] or [atod_metric] has read from the argument.
    [-s] takes an argument and has no case, like a character outside the
    option string. *)
Inductive option_t : Type :=
| Opt_h
| Opt_V
| Opt_v
| Opt_b (v : nat)
| Opt_r (p : string)
| Opt_g (g : float)
| Opt_w (p : string)
| Opt_s
| Opt_unknown.

(** The variables of [main] that the options set; [verbosity] is counted
    and never read. *)
Record args : Type := Args {
  frame_size : nat;
  inputs : list input_t;
  inputs_idx : nat;
  wr_path : option string;
}.

Inductive parsed : Type :=
| Parsed (a : args)
| Exit (code : Z)     (* usage(0), exit(0), usage(1) *)
| OutOfArray.         (* inputs[inputs_idx] with inputs_idx = 32 *)

(** [size_t frame_size = 0x40000]. *)
Definition DEFAULT_FRAME_SIZE : nat := Z.to_nat 262144.

(** [input_t inputs[32] = {0}; unsigned inputs_idx = 0; char *wr_path = NULL]. *)
Definition initial : args :=
  {| frame_size := DEFAULT_FRAME_SIZE; inputs := replicate INPUTS zero_input;
     inputs_idx := 0; wr_path := None |}.

(** The switch (lines 93-118). *)
Definition handle (o : option_t) (a : args) : parsed :=
  match o with
  | Opt_h => Exit 0
  | Opt_V => Exit 0
  | Opt_v => Parsed a
  | Opt_b v => Parsed {| frame_size := v; inputs := inputs a; inputs_idx := inputs_idx a;
                         wr_path := wr_path a |}
  | Opt_r p =>
      match inputs a !! inputs_idx a with
      | None => OutOfArray
      | Some c =>
          let idx := match path c with
                     | Some _ => S (inputs_idx a)
                     | None => inputs_idx a
                     end in
          match inputs a !! idx with
          | None => OutOfArray
          | Some _ =>
              Parsed {| frame_size := frame_size a;
                        inputs := <[idx := {| path := Some p; gain := 1 |}]> (inputs a);
                        inputs_idx := idx; wr_path := wr_path a |}
          end
      end
  | Opt_g g =>
      match inputs a !! inputs_idx a with
      | None => OutOfArray
      | Some c =>
          Parsed {| frame_size := frame_size a;
                    inputs := <[inputs_idx a := {| path := path c; gain := g |}]> (inputs a);
                    inputs_idx := inputs_idx a; wr_path := wr_path a |}
      end
  | Opt_w p => Parsed {| frame_size := frame_size a; inputs := inputs a;
                         inputs_idx := inputs_idx a; wr_path := Some p |}
  | Opt_s => Exit 1
  | Opt_unknown => Exit 1
  end.

(** The loop over [getopt] (lines 92-119). *)
Fixpoint getopt_loop (os : list option_t) (a : args) : parsed :=
  match os with
  | [] => Parsed a
  | o :: os' =>
      match handle o a with
      | Parsed a' => getopt_loop os' a'
      | r => r
      end
  end.

(** The inputs that the loops of [main] run over, [inputs[0 .. inputs_idx]]. *)
Definition configured (a : args) : list input_t :=
  take (S (inputs_idx a)) (inputs a).

(** *** The files *)

(** The file system: the file that each path names, by its number, and
    the bytes of each file.  Several paths may name one file ([a] and
    [./a], links).  [open] of an input succeeds on the paths that name a
    file, and [open] of the output on the paths that [can_create] holds
    of; each call of [write] is complete. *)
Record files : Type := Files {
  names : gmap string nat;
  contents : gmap nat (list byte);
}.

Definition no_files : files := {| names := ∅; contents := ∅ |}.

(** [open(path, O_RDONLY)]: the file that the path names, and its bytes. *)
Definition open_input (fsys : files) (p : string) : option (nat * list byte) :=
  i ← names fsys !! p; bs ← contents fsys !! i; Some (i, bs).

(** [open(wr_path, O_CREAT | O_TRUNC | O_WRONLY, 0644)] where it succeeds:
    the file that the path names is emptied, or the path is given a new,
    empty file. *)
Definition open_output (fsys : files) (w : string) : nat * files :=
  match names fsys !! w with
  | Some j => (j, {| names := names fsys; contents := <[j := []]> (contents fsys) |})
  | None =>
      let j := fresh (dom (contents fsys) ∪ map_img (names fsys) : gset nat) in
      (j, {| names := <[w := j]> (names fsys); contents := <[j := []]> (contents fsys) |})
  end.

(** How [main] ends. *)
Inductive result : Type :=
| Usage (code : Z)            (* usage(0), exit(0), usage(1) in the options *)
| ExtraArguments              (* usage(1), line 123 *)
| NoInputs                    (* "No inputs.", exit(1) *)
| FailedInput (i : nat)       (* "Failed to open input", exit(1) *)
| FailedOutput                (* "Failed to open output", exit(1) *)
| Undefined                   (* an access outside [inputs] *)
| Feedback                    (* the output is the file of one of the inputs,
                                 emptied before it is read; what is read then
                                 depends on what was written; not followed *)
| Ran (st : SdrMix.status) (tr : list SdrMix.event) (fsys : files).
                              (* the loop, and the files it leaves *)

(** Lines 136-143: the inputs are opened in order; the index of the first
    that cannot be opened, or the files opened, with their bytes. *)
Fixpoint open_inputs (fsys : files) (i : nat) (cfg : list input_t)
  : nat + list (nat * list byte) :=
  match cfg with
  | [] => inr []
  | c :: cfg' =>
      match path c ≫= open_input fsys with
      | None => inl i
      | Some f =>
          match open_inputs fsys (S i) cfg' with
          | inl j => inl j
          | inr fs => inr (f :: fs)
          end
      end
  end.

(** The input of descriptor [d], as the mixing loop uses it. *)
Definition descriptor (d : nat) (c : input_t) : SdrMix.input_t :=
  {| SdrMix.fd := d; SdrMix.gain := gain c |}.

(** Lines 126-223, once the options are read. *)
Definition mix (fsys : files) (can_create : string → bool) (fuel : nat) (a : args) : result :=
  match configured a with
  | [] => Undefined
  | first :: rest =>
      match path first with
      | None => NoInputs
      | Some _ =>
          let w := default "-"%string (wr_path a) in
          match open_inputs fsys 0 (first :: rest) with
          | inl i => FailedInput i
          | inr fs =>
              if negb (can_create w) then FailedOutput
              else
                let '(j, fsys1) := open_output fsys w in
                if bool_decide (j ∈ fs.*1) then Feedback
                else
                  let '(st, world) :=
                    SdrMix.mix_loop fuel (frame_size a) (descriptor 0 first)
                                    (imap (λ i, descriptor (S i)) rest)
                                    (SdrMix.opened ((λ f, [SdrMix.Data f.2]) <$> fs) []) in
                  Ran st (SdrMix.trace world)
                      {| names := names fsys1;
                         contents := <[j := SdrMix.written (SdrMix.trace world)]>
                                       (contents fsys1) |}
          end
      end
  end.

(** [main]: lines 78-223. *)
Definition main (fsys : files) (can_create : string → bool) (fuel : nat)
           (os : list option_t) (extra_arguments : bool) : result :=
  match getopt_loop os initial with
  | Exit code => Usage code
  | OutOfArray => Undefined
  | Parsed a => if extra_arguments then ExtraArguments else mix fsys can_create fuel a
  end.

(** The exit status: that of [exit], or the 0 of a [main] that reaches its
    end. *)
Definition exit_status (r : result) : option Z :=
  match r with
  | Usage code => Some code
  | ExtraArguments | NoInputs | FailedInput _ | FailedOutput => Some 1
  | Ran SdrMix.Exited _ _ => Some 0
  | _ => None
  end.

(** *** Statements about the options *)

(** The options that name one input: [-r path], and [-g gain] when a gain
    is given. *)
Definition group (s : string * option float) : list option_t :=
  match s with
  | (p, Some g) => [Opt_r p; Opt_g g]
  | (p, None) => [Opt_r p]
  end.

(** The input that the options of [group] describe. *)
Definition named (s : string * option float) : input_t :=
  {| path := Some s.1; gain := default 1%float s.2 |}.

Fixpoint count_r (os : list option_t) : nat :=
  match os with
  | [] => 0
  | Opt_r _ :: os' => S (count_r os')
  | _ :: os' => count_r os'
  end.

(** The variables with [inputs_idx] at the input [x], which the inputs
    [pre] precede and the slots [rest] follow. *)
Definition at_slot (n : nat) (w : option string) (pre : list input_t) (x : input_t)
           (rest : list input_t) : args :=
  {| frame_size := n; inputs := pre ++ x :: rest; inputs_idx := length pre; wr_path := w |}.

(** The slots in use: up to [inputs_idx], and one more once the input at
    [inputs_idx] has a path. *)
Definition used (a : args) : nat :=
  match inputs a !! inputs_idx a with
  | Some {| path := None |} => inputs_idx a
  | _ => S (inputs_idx a)
  end.

(** After [n] options [-r]: the array is whole, at most [n] slots are in
    use, and [inputs_idx] is below [n], or 0. *)
Definition after_r (n : nat) (a : args) : Prop :=
  length (inputs a) = INPUTS ∧ (used a ≤ n)%nat ∧ (inputs_idx a ≤ n - 1)%nat.

(** [main] ends before any file is opened. *)
Definition opens_nothing (r : result) : Prop :=
  match r with
  | Usage _ | ExtraArguments | NoInputs => True
  | _ => False
  end.

(** The path [p] names a file with the bytes [bs]. *)
Definition holds (fsys : files) (p : string) (bs : list byte) : Prop :=
  ∃ j, names fsys !! p = Some j ∧ contents fsys !! j = Some bs.

(** From [fsys] to [fsys'] every path but [w] names the file it named, and
    every file but the one that [w] names in [fsys'] has the bytes it had. *)
Definition only_output_changed (w : string) (fsys fsys' : files) : Prop :=
  (∀ p, p ≠ w → names fsys' !! p = names fsys !! p)
  ∧ (∀ k, names fsys' !! w ≠ Some k → contents fsys' !! k = contents fsys !! k).

(** Every path that named a file other than the one [w] named still names
    it, with the bytes it had. *)
Definition others_kept (w : string) (fsys fsys' : files) : Prop :=
  ∀ p i bs, names fsys !! p = Some i → names fsys !! w ≠ Some i →
            contents fsys !! i = Some bs → holds fsys' p bs.

(** [main] has run the loop to "Done." and left the bytes [bs] in the file
    that the path [w] names, and every other file as it was. *)
Definition leaves_in (r : result) (fsys : files) (w : string) (bs : list byte) : Prop :=
  ∃ tr fsys',
    r = Ran SdrMix.Exited tr fsys' ∧ last tr = Some SdrMix.EvDone
    ∧ holds fsys' w bs ∧ only_output_changed w fsys fsys' ∧ others_kept w fsys fsys'.

(** The options [-w path], if an output is named. *)
Definition output_option (out : option string) : list option_t :=
  match out with
  | Some p => [Opt_w p]
  | None => []
  end.

End MixMain.

(* ===================================================================== *)
(** ** Properties of the integer operations *)
(* ===================================================================== *)

Module CIntFacts.
Import CInt.

(** Goals about the range of [int], once the bounds are unfolded, are linear. *)
Ltac int_range := unfold in_int, INT_MIN, INT_MAX in *; lia.

Lemma wrap_int_in_int z : in_int (wrap_int z).
Proof.
  unfold in_int, wrap_int, INT_MIN, INT_MAX.
  pose proof (Z.mod_pos_bound (z + 2147483648) 4294967296). lia.
Qed.

Lemma wrap_int_id z : in_int z -> wrap_int z = z.
Proof.
  unfold in_int, wrap_int, INT_MIN, INT_MAX. intros H.
  rewrite Z.mod_small; lia.
Qed.

Lemma int_sub_exact a b : in_int (a - b) -> int_sub a b = a - b.
Proof. apply wrap_int_id. Qed.

Lemma int_add_exact a b : in_int (a + b) -> int_add a b = a + b.
Proof. apply wrap_int_id. Qed.

Lemma int_mul_exact a b : in_int (a * b) -> int_mul a b = a * b.
Proof. apply wrap_int_id. Qed.

End CIntFacts.

(* ===================================================================== *)
(** ** Properties of the tone scheduler *)
(* ===================================================================== *)

Module PulseBeepFacts.
Import CInt CIntFacts PulseBeep.

(** *** The selection loop *)

(** What the loop returns from any starting candidate: either the candidate
    survived, and no countdown is below it, or the first source of least
    countdown replaced it. *)
Lemma find_next_from_spec ps : ∀ i gap beep g b,
  find_next_from i ps gap beep = (g, b) →
  (b = beep ∧ g = gap ∧ ∀ q, q ∈ ps → gap <= next q)
  ∨ (∃ k p, b = Some (i + k)%nat ∧ ps !! k = Some p ∧ next p = g ∧ g < gap
       ∧ (∀ q, q ∈ ps → g <= next q)
       ∧ (∀ j q, (j < k)%nat → ps !! j = Some q → g < next q)).
Proof.
  induction ps as [|p ps IH]; intros i gap beep g b Hf; simpl in Hf.
  - left. inversion Hf; subst. split_and!; try done.
    intros q Hq. by apply elem_of_nil in Hq.
  - destruct (Z.ltb_spec (next p) gap) as [Hlt|Hge].
    + apply IH in Hf as [(-> & -> & Hall)|(k & p' & -> & Hk & Hg & Hlt' & Hmin & Hfirst)].
      * right. exists 0%nat, p. rewrite Nat.add_0_r. split_and!; try done.
        -- intros q [->|Hq]%elem_of_cons; [lia|by apply Hall].
        -- intros j q Hj. lia.
      * right. exists (S k), p'. split_and!; try done.
        -- f_equal. lia.
        -- lia.
        -- intros q [->|Hq]%elem_of_cons; [lia|by apply Hmin].
        -- intros [|j] q Hj Hq; simpl in Hq.
           ++ inversion Hq; subst. lia.
           ++ apply (Hfirst j); [lia|done].
    + apply IH in Hf as [(-> & -> & Hall)|(k & p' & -> & Hk & Hg & Hlt' & Hmin & Hfirst)].
      * left. split_and!; try done.
        intros q [->|Hq]%elem_of_cons; [lia|by apply Hall].
      * right. exists (S k), p'. split_and!; try done.
        -- f_equal. lia.
        -- intros q [->|Hq]%elem_of_cons; [lia|by apply Hmin].
        -- intros [|j] q Hj Hq; simpl in Hq.
           ++ inversion Hq; subst. lia.
           ++ apply (Hfirst j); [lia|done].
Qed.

(** When some countdown is below [INT_MAX], the loop selects the first
    source of least countdown, and [gap] is that countdown. *)
Lemma find_next_first_min ps :
  (∃ q, q ∈ ps ∧ next q < INT_MAX) →
  ∃ i p, find_next ps = (next p, Some i) ∧ ps !! i = Some p
    ∧ (∀ q, q ∈ ps → next p <= next q)
    ∧ (∀ j q, (j < i)%nat → ps !! j = Some q → next p < next q).
Proof.
  intros (q & Hq & Hlt). unfold find_next.
  destruct (find_next_from 0 ps INT_MAX None) as [g b] eqn:Hf.
  apply find_next_from_spec in Hf
    as [(-> & -> & Hall)|(k & p & -> & Hk & <- & _ & Hmin & Hfirst)].
  - specialize (Hall q Hq). lia.
  - exists k, p. by split_and!.
Qed.

(** When no countdown is below [INT_MAX], nothing is selected. *)
Lemma find_next_none ps :
  (∀ q, q ∈ ps → INT_MAX <= next q) → find_next ps = (INT_MAX, None).
Proof.
  intros Hall. unfold find_next.
  destruct (find_next_from 0 ps INT_MAX None) as [g b] eqn:Hf.
  apply find_next_from_spec in Hf
    as [(-> & -> & _)|(k & p & -> & Hk & <- & Hlt & _)]; [done|].
  apply list_elem_of_lookup_2 in Hk. specialize (Hall p Hk). lia.
Qed.

(** *** One iteration *)

(** The three-beep run with the draws 0, 10^9 and 2*10^9 out of 2^31-1:
    the countdowns start at 1, 1770 and 3260 ms, and the sequence begins
    with the start silence, 1 ms of silence and the first source's beep,
    then 1769 ms of silence and the second source's beep. *)
Example three_beeps_run :
  ∃ st, schedule 2147483647 (λ k, Z.of_nat k * 1000000000) 14 three_beeps = Finished st
    ∧ next <$> init_beeps 2147483647 (λ k, Z.of_nat k * 1000000000) three_beeps
      = [1; 1770; 3260]
    ∧ take 5 (produced st)
      = [ {| hz := 0; db := -99; us := 500000 |};
          {| hz := 0; db := -99; us := 1000 |};
          {| hz := 159000000; db := 0; us := 14000 |};
          {| hz := 0; db := -99; us := 1769000 |};
          {| hz := 159500000; db := 0; us := 14000 |} ]
    ∧ length (produced st) = 29%nat.
Proof. eexists. split; [vm_compute; reflexivity|]. by split_and!. Qed.

Lemma sched_step_inv st st' :
  sched_step st = Some st' →
  ∃ gap i b, find_next (beeps st) = (gap, Some i) ∧ beeps st !! i = Some b
    ∧ st' = {| beeps := advance gap <$> beeps st;
               tones := <[S (tones_idx st) := beep_tone b]>
                          (<[tones_idx st := silence gap]> (tones st));
               tones_idx := S (S (tones_idx st)) |}.
Proof.
  unfold sched_step. destruct (find_next (beeps st)) as [gap [i|]]; simpl; [|done].
  destruct (beeps st !! i) as [b|] eqn:Hb; [|done].
  intros [= <-]. by exists gap, i, b.
Qed.

Lemma sched_step_selected st gap i b :
  find_next (beeps st) = (gap, Some i) → beeps st !! i = Some b →
  sched_step st =
    Some {| beeps := advance gap <$> beeps st;
            tones := <[S (tones_idx st) := beep_tone b]>
                       (<[tones_idx st := silence gap]> (tones st));
            tones_idx := S (S (tones_idx st)) |}.
Proof. intros Hf Hb. unfold sched_step. rewrite Hf. simpl. by rewrite Hb. Qed.

Lemma find_next_Some ps g i :
  find_next ps = (g, Some i) →
  ∃ p, ps !! i = Some p ∧ next p = g ∧ g < INT_MAX
    ∧ (∀ q, q ∈ ps → g <= next q)
    ∧ (∀ j q, (j < i)%nat → ps !! j = Some q → g < next q).
Proof.
  intros Hf. apply find_next_from_spec in Hf
    as [([=] & _)|(k & p & [= ->] & Hk & Hg & Hlt & Hmin & Hfirst)].
  exists p. by split_and!.
Qed.

(** C1, at a countdown of [INT_MAX]: a single source of interval
    2147483647 is selected once; its countdown is then [INT_MAX], the
    selection loop leaves [beep] at [NULL] although that source has the
    least countdown, and the iteration dereferences it. *)
Theorem selection_misses_int_max :
  ∃ st1,
    sched_step (init_state 2147483647 (λ _, 0) [source 1000 0 14 2147483647]) = Some st1
    ∧ (next <$> beeps st1) = [INT_MAX]
    ∧ guard st1 = true
    ∧ find_next (beeps st1) = (INT_MAX, None)
    ∧ sched_step st1 = None.
Proof. eexists. split; [vm_compute; reflexivity|]. by split_and!. Qed.

(** *** The countdown update *)

Lemma advance_advanced gap p : advanced gap p (advance gap p).
Proof.
  unfold advanced, advance.
  destruct (Z.leb_spec (next p) gap); simpl; split_and!; try done; try lia.
  intros _. split; [done|]. apply int_sub_exact.
Qed.

(** C2. After the (silence, beep) pair for gap, the countdown of the
    selected source, has been appended, every source whose countdown is at
    most gap has it reset to its own interval, and every source whose
    countdown is above gap has gap subtracted from it. *)
Theorem advance_resets_or_subtracts st st' :
  sched_step st = Some st' → iteration_post st st'.
Proof.
  intros (gap & i & b & Hf & Hb & ->)%sched_step_inv.
  exists gap, i, b. simpl.
  destruct (find_next_Some _ _ _ Hf) as (b' & Hb' & Hg & _).
  assert (b' = b) as -> by congruence.
  split_and!; try done.
  - by rewrite length_fmap.
  - intros j p Hp. exists (advance gap p). split.
    + by rewrite list_lookup_fmap, Hp.
    + apply advance_advanced.
Qed.

(** The first iteration of the three-beep run with the draws 0, 10^9 and
    2*10^9 out of 2^31-1: the countdowns 1, 1770 and 3260 become 4000,
    1769 and 3259. *)
Lemma advance_resets_or_subtracts_witness :
  ∃ st', sched_step (init_state 2147483647 (λ k, Z.of_nat k * 1000000000) three_beeps)
           = Some st'
    ∧ (next <$> beeps st') = [4000; 1769; 3259]
    ∧ iteration_post
        (init_state 2147483647 (λ k, Z.of_nat k * 1000000000) three_beeps) st'.
Proof.
  eexists. split; [vm_compute; reflexivity|]. split; [reflexivity|].
  apply advance_resets_or_subtracts. vm_compute. reflexivity.
Defined.

(** *** The seeded initialisation *)

(** X22. A draw below [RAND_MAX] gives a first countdown in
    [1 .. interval], for every interval from 1 to [INT_MAX]. *)
Lemma first_next_range RAND_MAX interval r :
  1 <= interval <= INT_MAX → 0 <= r < RAND_MAX →
  1 <= first_next RAND_MAX interval r <= interval.
Proof.
  unfold INT_MAX. intros HI Hr. unfold first_next.
  assert (0 <= (interval * r) ÷ RAND_MAX < interval) as Hq.
  { rewrite Z.quot_div_nonneg by lia. split.
    - apply Z.div_pos; lia.
    - apply Z.div_lt_upper_bound; [lia|]. nia. }
  rewrite wrap_int_id by int_range.
  rewrite int_add_exact by int_range. lia.
Qed.

Lemma first_next_range_witness : 1 <= first_next 32767 4000 16000 <= 4000.
Proof. apply (first_next_range 32767 4000 16000); unfold INT_MAX; lia. Defined.

(** The draw [RAND_MAX] itself gives [interval + 1]. *)
Lemma first_next_rand_max RAND_MAX interval :
  0 < RAND_MAX → 1 <= interval < INT_MAX →
  first_next RAND_MAX interval RAND_MAX = interval + 1.
Proof.
  unfold INT_MAX. intros HR HI. unfold first_next.
  rewrite Z.quot_mul by lia.
  rewrite wrap_int_id by int_range.
  apply int_add_exact. int_range.
Qed.

(** Any draw of the generator's range gives a countdown in
    [1 .. interval + 1]. *)
Lemma first_next_bounds RAND_MAX interval r :
  0 < RAND_MAX → 0 <= interval < INT_MAX → 0 <= r <= RAND_MAX →
  1 <= first_next RAND_MAX interval r <= interval + 1.
Proof.
  unfold INT_MAX. intros HR HI Hr. unfold first_next.
  assert (0 <= (interval * r) ÷ RAND_MAX <= interval) as Hq.
  { rewrite Z.quot_div_nonneg by lia. split.
    - apply Z.div_pos; lia.
    - apply Z.div_le_upper_bound; [lia|]. nia. }
  rewrite wrap_int_id by int_range.
  rewrite int_add_exact by int_range. lia.
Qed.

(** C3, at the draw [RAND_MAX]: with interval 4000 the initial countdown
    is 4001, whether [RAND_MAX] is 32767 or 2147483647; the claim bounds
    it by the interval. *)
Theorem first_next_exceeds_interval :
  first_next 32767 4000 32767 = 4001
  ∧ first_next 2147483647 4000 2147483647 = 4001
  ∧ next <$> init_beeps 32767 (λ _, 32767) [source 1000 0 14 4000] = [4001].
Proof. split_and!; reflexivity. Qed.

(** *** The shape of the tone sequence *)

Lemma take_two_inserts {A} (l : list A) n x y :
  (S n < length l)%nat →
  take (S (S n)) (<[S n := y]> (<[n := x]> l)) = take n l ++ [x; y].
Proof.
  intros Hn.
  rewrite (take_S_r _ (S n) y)
    by (apply list_lookup_insert_eq; rewrite length_insert; lia).
  rewrite take_insert_ge by lia.
  rewrite (take_S_r _ n x) by (apply list_lookup_insert_eq; lia).
  rewrite take_insert_ge by lia.
  by rewrite <- app_assoc.
Qed.

Lemma same_source_advance gap s p : same_source s p → same_source s (advance gap p).
Proof. unfold same_source, advance. by destruct (next p <=? gap). Qed.

Lemma same_source_beep_tone s p : same_source s p → beep_tone p = beep_tone s.
Proof. unfold same_source, beep_tone. intros (-> & -> & -> & _). done. Qed.

Lemma loop_inv_init RAND_MAX rand bs : loop_inv bs (init_state RAND_MAX rand bs).
Proof.
  split_and!.
  - reflexivity.
  - simpl. unfold init_beeps. apply Forall2_same_length_lookup_2.
    + by rewrite length_imap.
    + intros i s p Hs Hp. rewrite list_lookup_imap, Hs in Hp.
      simpl in Hp. inversion Hp; subst. by unfold same_source.
  - exists []. split_and!; try done. simpl. lia.
Qed.

Lemma loop_inv_step bs st st' :
  loop_inv bs st → guard st = true → sched_step st = Some st' → loop_inv bs st'.
Proof.
  intros (Hlen & Hsrc & pairs & Hprod & Hidx & Hn & Hin) Hg
         (gap & i & b & Hf & Hb & ->)%sched_step_inv.
  unfold guard, TONES in Hg. apply Nat.ltb_lt in Hg.
  destruct (Forall2_lookup_r _ _ _ _ _ Hsrc Hb) as (s & Hs & Hsame).
  split_and!; simpl.
  - by rewrite !length_insert.
  - apply Forall2_fmap_r. eapply Forall2_impl; [exact Hsrc|].
    intros s' p'. apply same_source_advance.
  - exists (pairs ++ [(gap, s)]). split_and!.
    + unfold produced in *. simpl.
      rewrite take_two_inserts by (rewrite Hlen; unfold TONES; lia).
      rewrite Hprod, bind_app, bind_singleton. unfold pair_tones at 3. simpl.
      by rewrite (same_source_beep_tone s b).
    + rewrite length_app. simpl. lia.
    + rewrite length_app. simpl. lia.
    + apply Forall_app. split; [done|]. apply Forall_singleton. simpl.
      by eapply list_elem_of_lookup_2.
Qed.

Lemma reachable_loop_inv RAND_MAX rand bs st :
  reachable RAND_MAX rand bs st → loop_inv bs st.
Proof.
  induction 1 as [|st st' _ IH Hg Hstep].
  - apply loop_inv_init.
  - by eapply loop_inv_step.
Qed.

(** The state in which the loop is left is one of those it passes through. *)
Lemma sched_loop_reachable RAND_MAX rand bs fuel : ∀ st st',
  reachable RAND_MAX rand bs st → sched_loop fuel st = Finished st' →
  reachable RAND_MAX rand bs st' ∧ guard st' = false.
Proof.
  induction fuel as [|fuel IH]; intros st st' Hr Hl; simpl in Hl;
    destruct (guard st) eqn:Hg; try done.
  - inversion Hl; by subst.
  - destruct (sched_step st) as [st1|] eqn:Hs; [|done].
    apply (IH st1); [|done]. by eapply reach_step.
  - inversion Hl; by subst.
Qed.

(** *** Leaving the loop *)

Lemma advance_ok gap p :
  0 <= gap → 0 <= next p < INT_MAX ∧ 0 <= intv p < INT_MAX →
  0 <= next (advance gap p) < INT_MAX ∧ 0 <= intv (advance gap p) < INT_MAX.
Proof.
  unfold INT_MAX. intros Hgap [Hn Hi]. unfold advance.
  destruct (Z.leb_spec (next p) gap); simpl; [lia|].
  rewrite int_sub_exact by int_range. lia.
Qed.

Lemma sched_step_total st :
  beeps st ≠ [] → countdowns_ok (beeps st) →
  ∃ st', sched_step st = Some st' ∧ beeps st' ≠ [] ∧ countdowns_ok (beeps st')
    ∧ tones_idx st' = S (S (tones_idx st)).
Proof.
  intros Hne Hok.
  destruct (find_next_first_min (beeps st)) as (i & p & Hf & Hp & Hmin & _).
  { destruct (beeps st) as [|q ps] eqn:Hbs; [done|]. exists q. split; [left|].
    apply Forall_cons in Hok as [[? _] _]. lia. }
  eexists. split; [by apply (sched_step_selected st (next p) i p)|]. simpl.
  split_and!; try done.
  - destruct (beeps st); [done|]. discriminate.
  - unfold countdowns_ok in *. apply Forall_fmap.
    eapply Forall_impl; [exact Hok|]. intros q Hq. simpl. apply advance_ok; [|done].
    apply list_elem_of_lookup_2 in Hp.
    rewrite Forall_forall in Hok. specialize (Hok p Hp). lia.
Qed.

Lemma sched_loop_done fuel st : guard st = false → sched_loop fuel st = Finished st.
Proof. intros Hg. destruct fuel; simpl; by rewrite Hg. Qed.

Lemma sched_loop_S fuel st st' :
  guard st = true → sched_step st = Some st' →
  sched_loop (S fuel) st = sched_loop fuel st'.
Proof. intros Hg Hs. simpl. by rewrite Hg, Hs. Qed.

(** From index [29 - 2k] the loop runs [k] more iterations and is left
    at index 29. *)
Lemma sched_loop_runs k : ∀ fuel st,
  (tones_idx st + 2 * k = 29)%nat → (k ≤ fuel)%nat →
  beeps st ≠ [] → countdowns_ok (beeps st) →
  ∃ st', sched_loop fuel st = Finished st' ∧ tones_idx st' = 29%nat.
Proof.
  induction k as [|k IH]; intros fuel st Hidx Hfuel Hne Hok.
  - exists st. split; [|lia]. apply sched_loop_done.
    unfold guard, TONES. apply Nat.ltb_ge. lia.
  - destruct fuel as [|fuel]; [lia|].
    destruct (sched_step_total st Hne Hok) as (st1 & Hs & Hne1 & Hok1 & Hidx1).
    rewrite (sched_loop_S fuel st st1); [|unfold guard, TONES; apply Nat.ltb_lt; lia|done].
    apply IH; try done; lia.
Qed.

(** X23. With intervals in [0 .. INT_MAX - 2] and draws in [0 .. RAND_MAX] the
    scheduling loop is left after 14 iterations, with exactly 29 tones:
    the start silence and 14 (silence, beep) pairs. *)
Lemma schedule_finishes RAND_MAX rand bs fuel :
  0 < RAND_MAX → (∀ k, 0 <= rand k <= RAND_MAX) →
  bs ≠ [] → Forall (λ s, 0 <= intv s <= INT_MAX - 2) bs → (14 ≤ fuel)%nat →
  ∃ st, schedule RAND_MAX rand fuel bs = Finished st
    ∧ tones_idx st = 29%nat ∧ length (produced st) = 29%nat.
Proof.
  intros HR Hrand Hne Hint Hfuel. unfold schedule.
  destruct (sched_loop_runs 14 fuel (init_state RAND_MAX rand bs))
    as (st & Hl & Hidx); try done.
  - simpl. unfold init_beeps. destruct bs; [done|]. discriminate.
  - simpl. unfold countdowns_ok, init_beeps. apply Forall_lookup_2.
    intros i p Hp. rewrite list_lookup_imap in Hp.
    destruct (bs !! i) as [s|] eqn:Hs; [|done]. simpl in Hp. inversion Hp; subst.
    rewrite Forall_lookup in Hint. specialize (Hint i s Hs). simpl in Hint.
    unfold INT_MAX in *. simpl.
    pose proof (first_next_bounds RAND_MAX (intv s) (rand i) HR) as Hb.
    unfold INT_MAX in Hb. specialize (Hb ltac:(lia) (Hrand i)). lia.
  - exists st. split_and!; try done.
    assert (reachable RAND_MAX rand bs st) as Hr.
    { eapply sched_loop_reachable; [apply reach_init|exact Hl]. }
    apply reachable_loop_inv in Hr as (Hlen & _).
    unfold produced. rewrite length_take, Hlen, Hidx. done.
Qed.

Lemma schedule_finishes_witness :
  ∃ st, schedule 2147483647 (λ _, 12345) 14 three_beeps = Finished st
    ∧ tones_idx st = 29%nat ∧ length (produced st) = 29%nat.
Proof.
  apply (schedule_finishes 2147483647 (λ _, 12345) three_beeps 14).
  - lia.
  - intros k. lia.
  - done.
  - unfold three_beeps, INT_MAX. repeat constructor; simpl; lia.
  - lia.
Defined.

(** *** The tone sequence *)

Lemma lookup_pair_tones : ∀ pairs k,
  (pairs ≫= pair_tones) !! (2 * k)%nat = (λ gs, silence gs.1) <$> pairs !! k
  ∧ (pairs ≫= pair_tones) !! (2 * k + 1)%nat = (λ gs, beep_tone gs.2) <$> pairs !! k.
Proof.
  induction pairs as [|gs pairs IH]; intros k; [done|].
  rewrite bind_cons. destruct k as [|k]; [done|].
  replace (2 * S k)%nat with (S (S (2 * k))) by lia.
  replace (S (S (2 * k)) + 1)%nat with (S (S (2 * k + 1))) by lia.
  apply IH.
Qed.

Lemma reachable_well_formed RAND_MAX rand bs st :
  reachable RAND_MAX rand bs st → well_formed_sequence bs st.
Proof.
  intros (Hlen & _ & pairs & Hprod & Hidx & Hn & Hin)%reachable_loop_inv.
  assert (length (produced st) = tones_idx st) as Hlp.
  { unfold produced. rewrite length_take, Hlen. unfold TONES. lia. }
  split_and!.
  - by rewrite Hprod.
  - done.
  - rewrite Hlp. lia.
  - by exists (length pairs).
  - intros k Hk.
    destruct (lookup_lt_is_Some_2 pairs k ltac:(lia)) as [gs Hgs].
    exists gs.1, gs.2. split.
    { rewrite Forall_lookup in Hin. by apply (Hin k). }
    destruct (lookup_pair_tones pairs k) as [Hs Hb]. rewrite Hgs in Hs, Hb.
    rewrite Hprod.
    replace (2 * k + 1)%nat with (S (2 * k)) by lia.
    replace (2 * k + 2)%nat with (S (2 * k + 1)) by lia.
    split; [exact Hs|exact Hb].
  - intros Hone.
    destruct pairs as [|gs pairs _] using rev_ind; [simpl in Hidx; lia|].
    rewrite Forall_app, Forall_singleton in Hin. destruct Hin as [_ Hgs].
    exists (start_silence :: (pairs ≫= pair_tones)), gs.1, gs.2. split; [exact Hgs|].
    by rewrite Hprod, bind_app, bind_singleton.
  - unfold guard, TONES. intros Hg%Nat.ltb_ge. lia.
Qed.

(** C4. In every state that the scheduling loop passes through the tone
    sequence starts with the silence of 0 Hz, -99 dB and 500000 us, holds
    no more than the 30 tones of the array, and after that silence consists
    of whole pairs, a silence of 0 Hz and -99 dB followed by the beep of a
    configured source with that source's frequency, attenuation and
    length: it never ends with a silence that lacks its beep.  And for a
    generator in its range, intervals of 0 to [INT_MAX - 2] ms and at
    least one source the loop is left, after 14 iterations, with such a
    sequence of 29 tones, which closes with a whole pair. *)
Theorem tone_sequence_invariant RAND_MAX rand bs :
  (∀ st, reachable RAND_MAX rand bs st → well_formed_sequence bs st)
  ∧ (sane_config RAND_MAX rand bs → bs ≠ [] →
     ∀ fuel, (14 ≤ fuel)%nat → leaves_whole_pairs RAND_MAX rand bs fuel).
Proof.
  split; [intros st; apply reachable_well_formed|].
  intros (HR & Hrand & Hint) Hne fuel Hfuel. unfold leaves_whole_pairs, schedule.
  destruct (sched_loop_runs 14 fuel (init_state RAND_MAX rand bs))
    as (st & Hl & Hidx); try done.
  - simpl. unfold init_beeps. destruct bs; [done|]. discriminate.
  - simpl. unfold countdowns_ok, init_beeps. apply Forall_lookup_2.
    intros i p Hp. rewrite list_lookup_imap in Hp.
    destruct (bs !! i) as [s|] eqn:Hs; [|done]. simpl in Hp. inversion Hp; subst.
    rewrite Forall_lookup in Hint. specialize (Hint i s Hs). simpl in Hint.
    unfold INT_MAX in *. simpl.
    pose proof (first_next_bounds RAND_MAX (intv s) (rand i) HR) as Hb.
    unfold INT_MAX in Hb. specialize (Hb ltac:(lia) (Hrand i)). lia.
  - assert (reachable RAND_MAX rand bs st) as Hr.
    { eapply sched_loop_reachable; [apply reach_init|exact Hl]. }
    pose proof (reachable_well_formed _ _ _ _ Hr) as Hwf.
    pose proof Hwf as (_ & Hlen & _ & _ & _ & Hclose & _).
    destruct Hclose as (pre & gap & s & Hs & Hprod); [lia|].
    exists st, pre, gap, s. split_and!; try done. by rewrite Hlen.
Qed.

Lemma tone_sequence_invariant_witness :
  leaves_whole_pairs 2147483647 (λ k, (Z.of_nat k * 1000000000) `mod` 2147483648)
                     three_beeps 14.
Proof.
  apply (proj2 (tone_sequence_invariant
                  2147483647 (λ k, (Z.of_nat k * 1000000000) `mod` 2147483648)
                  three_beeps)).
  - split_and!; [lia| |].
    + intros k. pose proof (Z.mod_pos_bound (Z.of_nat k * 1000000000) 2147483648). lia.
    + unfold three_beeps, INT_MAX. repeat constructor; simpl; lia.
  - done.
  - lia.
Defined.

(** *** A single source *)

(** With one source, an iteration appends the silence of its countdown and
    its beep, and resets the countdown to the interval. *)
Lemma single_source_step F A L I c ts n :
  c < INT_MAX →
  sched_step {| beeps := [Beep F A L I c]; tones := ts; tones_idx := n |}
  = Some {| beeps := [Beep F A L I I];
            tones := <[S n := Tone F A (int_mul L 1000)]> (<[n := silence c]> ts);
            tones_idx := S (S n) |}.
Proof.
  intros Hc. unfold sched_step, find_next. simpl.
  destruct (Z.ltb_spec c INT_MAX); [|lia]. simpl.
  unfold advance. simpl. by rewrite Z.leb_refl.
Qed.

(** With the interval [INT_MAX] the single source leads the loop to the
    NULL dereference, whatever the generator and the seed: if the first
    iteration selects the source, its countdown becomes [INT_MAX] and the
    second iteration selects nothing. *)
Lemma int_max_interval_never_finishes RAND_MAX rand F A L fuel st :
  schedule RAND_MAX rand fuel [source F A L 2147483647] ≠ Finished st.
Proof.
  unfold schedule.
  change (init_state RAND_MAX rand [source F A L 2147483647])
    with {| beeps := [Beep F A L 2147483647 (first_next RAND_MAX 2147483647 (rand 0%nat))];
            tones := <[0%nat := start_silence]> (replicate TONES zero_tone);
            tones_idx := 1 |}.
  generalize (first_next RAND_MAX 2147483647 (rand 0%nat)). intros c.
  destruct fuel as [|fuel]; [done|].
  destruct (Z.ltb_spec c INT_MAX) as [Hc|Hc].
  - erewrite sched_loop_S; [|reflexivity|by apply single_source_step].
    destruct fuel as [|fuel]; done.
  - cbn [sched_loop guard tones_idx]. change (1 <? TONES - 2)%nat with true. cbv iota.
    unfold sched_step, find_next. cbn [beeps find_next_from next].
    destruct (Z.ltb_spec c INT_MAX); [lia|done].
Qed.

(** C9, at an interval of [INT_MAX]: the single source of interval
    2147483647 brings the loop to the NULL dereference in its second
    iteration, and for no seed and no amount of fuel is the loop left with
    a tone sequence; the claim has it left with 29 tones. *)
Theorem schedule_faults_at_int_max_interval :
  schedule 2147483647 (λ _, 0) 14 [source 1000 0 14 2147483647] = Fault
  ∧ ∀ RAND_MAX rand fuel st,
      schedule RAND_MAX rand fuel [source 1000 0 14 2147483647] ≠ Finished st.
Proof.
  split; [vm_compute; reflexivity|].
  intros RAND_MAX rand fuel st. apply int_max_interval_never_finishes.
Qed.

(** Beyond 2147483 ms the length in microseconds is no [int]: 3000000 ms
    are stored as -1294967296 us. *)
Lemma long_beep_wraps : us (beep_tone (source 1000 0 3000000 4000)) = -1294967296.
Proof. reflexivity. Qed.

(** C5 as stated fails for a beep of 1000 Hz, 0 dB, 14 ms every 4000 ms:
    the second pair is a silence of 4000000 us and a beep of 14000 us,
    4014000 us together and not 4000000. *)
Lemma single_source_pair_counterexample :
  ∃ st, schedule 2147483647 (λ _, 0) 14 [source 1000 0 14 4000] = Finished st
    ∧ tones st !! 3%nat = Some {| hz := 0; db := -99; us := 4000000 |}
    ∧ tones st !! 4%nat = Some {| hz := 1000; db := 0; us := 14000 |}
    ∧ ¬ single_beep_period 1000 0 14 4000 st.
Proof.
  eexists. split; [vm_compute; reflexivity|]. split_and!; [reflexivity..|].
  intros (_ & _ & _ & Hsum).
  destruct (Hsum 1%nat ltac:(lia)) as (s & b & Hs & Hb & Hus).
  vm_compute in Hs, Hb. inversion Hs; inversion Hb; subst. discriminate Hus.
Qed.

(** C5, amended.  For one source with an interval of 1 to 2147483 ms and
    a length of 0 to 2147483 ms (so that both fit an [int] in
    microseconds), whatever the draw: the sequence starts with the silence
    of 500000 us, every beep has the source's frequency, attenuation and
    [L * 1000] us, and from the second pair on every silence lasts
    [I * 1000] us, a (silence, beep) pair [(I + L) * 1000] us. *)
Theorem single_source_timeline RAND_MAX rand F A L I :
  0 < RAND_MAX → 0 <= rand 0%nat <= RAND_MAX →
  1 <= I <= 2147483 → 0 <= L <= 2147483 →
  ∃ st, schedule RAND_MAX rand 14 [source F A L I] = Finished st
    ∧ single_beep_timeline F A L I st.
Proof.
  intros HR Hr HI HL.
  pose proof (first_next_bounds RAND_MAX I (rand 0%nat) HR) as Hc.
  unfold INT_MAX in Hc. specialize (Hc ltac:(lia) Hr).
  assert (int_mul L 1000 = L * 1000) as HmulL
    by (apply int_mul_exact; int_range).
  assert (silence I = {| hz := 0; db := -99; us := I * 1000 |}) as HsilI.
  { unfold silence. f_equal. apply int_mul_exact. int_range. }
  unfold schedule.
  change (init_state RAND_MAX rand [source F A L I])
    with {| beeps := [Beep F A L I (first_next RAND_MAX I (rand 0%nat))];
            tones := <[0%nat := start_silence]> (replicate TONES zero_tone);
            tones_idx := 1 |}.
  set (c := first_next RAND_MAX I (rand 0%nat)) in *. clearbody c.
  do 14 (erewrite sched_loop_S;
         [|reflexivity|apply single_source_step; unfold INT_MAX; lia]).
  rewrite sched_loop_done by reflexivity.
  eexists. split; [reflexivity|].
  rewrite HmulL, HsilI.
  generalize (silence c). intros s0.
  split_and!.
  - reflexivity.
  - reflexivity.
  - intros k Hk. do 14 (destruct k as [|k]; [reflexivity|]). lia.
  - intros k Hk. destruct k as [|k]; [lia|].
    do 13 (destruct k as [|k];
           [eexists _, _; split_and!; [reflexivity..|simpl; lia]|]).
    lia.
Qed.

Lemma single_source_timeline_witness :
  ∃ st, schedule 2147483647 (λ _, 0) 14 [source 1000 0 14 4000] = Finished st
    ∧ single_beep_timeline 1000 0 14 4000 st.
Proof.
  apply (single_source_timeline 2147483647 (λ _, 0) 1000 0 14 4000); lia.
Defined.

(** *** The iteration, where it selects *)



(** *** Countdowns between 0 and the interval *)

Lemma bounded_sources_init RAND_MAX rand bs :
  sane_config RAND_MAX rand bs → Forall bounded_source (init_beeps RAND_MAX rand bs).
Proof.
  intros (HR & Hrand & Hint). unfold init_beeps. apply Forall_lookup_2.
  intros i p Hp. rewrite list_lookup_imap in Hp.
  destruct (bs !! i) as [s|] eqn:Hs; [|done]. simpl in Hp. inversion Hp; subst.
  rewrite Forall_lookup in Hint. specialize (Hint i s Hs). simpl in Hint.
  pose proof (first_next_bounds RAND_MAX (intv s) (rand i) HR) as Hb.
  unfold bounded_source. simpl. unfold INT_MAX in *.
  specialize (Hb ltac:(lia) (Hrand i)). lia.
Qed.

Lemma bounded_source_advance gap p :
  0 <= gap → bounded_source p → bounded_source (advance gap p).
Proof.
  unfold bounded_source, INT_MAX. intros Hgap [Hn Hi]. unfold advance.
  destruct (Z.leb_spec (next p) gap); simpl; [lia|].
  rewrite int_sub_exact by int_range. lia.
Qed.

(** An iteration over bounded sources goes through, with a gap that is not
    negative and is at most every countdown, and leaves them bounded. *)
Lemma bounded_sources_step st :
  beeps st ≠ [] → Forall bounded_source (beeps st) →
  ∃ gap i b, find_next (beeps st) = (gap, Some i) ∧ beeps st !! i = Some b
    ∧ 0 <= gap ∧ (∀ q, q ∈ beeps st → gap <= next q)
    ∧ Forall bounded_source (advance gap <$> beeps st).
Proof.
  intros Hne Hok.
  destruct (find_next_first_min (beeps st)) as (i & b & Hf & Hb & Hmin & _).
  { destruct (beeps st) as [|q ps] eqn:Hbs; [done|]. exists q. split; [left|].
    apply Forall_cons in Hok as [[? ?] _]. unfold INT_MAX in *. lia. }
  assert (0 <= next b) as Hgap.
  { apply list_elem_of_lookup_2 in Hb. rewrite Forall_forall in Hok.
    by destruct (Hok b Hb) as [[? _] _]. }
  exists (next b), i, b. split_and!; try done.
  apply Forall_fmap. eapply Forall_impl; [exact Hok|].
  intros q Hq. by apply bounded_source_advance.
Qed.

Lemma reachable_bounded RAND_MAX rand bs st :
  sane_config RAND_MAX rand bs → reachable RAND_MAX rand bs st →
  Forall bounded_source (beeps st).
Proof.
  intros Hsane. induction 1 as [|st st' Hr IH Hg Hstep].
  - by apply bounded_sources_init.
  - apply sched_step_inv in Hstep as (gap & i & b & Hf & Hb & ->). simpl.
    destruct (bounded_sources_step st) as (gap' & i' & b' & Hf' & _ & _ & _ & Hok).
    { intros Hnil. by rewrite Hnil in Hb. }
    { exact IH. }
    rewrite Hf in Hf'. by inversion Hf'; subst.
Qed.

(** X2. With a generator that keeps to its range and intervals of 0 to
    [INT_MAX - 2] ms, the countdown of every source stays between 0 and its
    own interval plus 1, in every state the loop passes through. *)
Theorem countdowns_stay_bounded RAND_MAX rand bs st :
  sane_config RAND_MAX rand bs → reachable RAND_MAX rand bs st →
  Forall (λ p, 0 <= next p <= intv p + 1) (beeps st).
Proof.
  intros Hsane Hr. eapply Forall_impl; [by eapply reachable_bounded|].
  by intros p [Hn _].
Qed.

(** The generator that always returns 12345 out of 2^31-1. *)
Lemma sane_three_beeps : sane_config 2147483647 (λ _, 12345) three_beeps.
Proof.
  split_and!; [lia|intros _; lia|].
  unfold three_beeps, INT_MAX. repeat constructor; simpl; lia.
Qed.

Lemma countdowns_stay_bounded_witness :
  ∃ st, schedule 2147483647 (λ _, 12345) 14 three_beeps = Finished st
    ∧ (next <$> beeps st) = [2500; 1500; 3500]
    ∧ Forall (λ p, 0 <= next p <= intv p + 1) (beeps st).
Proof.
  eexists. split; [vm_compute; reflexivity|]. split; [vm_compute; reflexivity|].
  apply (countdowns_stay_bounded 2147483647 (λ _, 12345) three_beeps);
    [apply sane_three_beeps|].
  apply (sched_loop_reachable 2147483647 (λ _, 12345) three_beeps 14
           (init_state 2147483647 (λ _, 12345) three_beeps)); [apply reach_init|].
  vm_compute. reflexivity.
Defined.

(** X3. Under the same conditions every iteration goes through, and the
    silence it appends lasts at least 0 ms and at most 1 ms more than the
    shortest interval among the sources. *)
Theorem silence_at_most_shortest_interval RAND_MAX rand bs st :
  sane_config RAND_MAX rand bs → bs ≠ [] →
  reachable RAND_MAX rand bs st → guard st = true →
  ∃ st', sched_step st = Some st' ∧ appends_bounded_silence bs st st'.
Proof.
  intros Hsane Hne Hr Hg.
  pose proof (reachable_bounded _ _ _ _ Hsane Hr) as Hok.
  destruct (reachable_loop_inv _ _ _ _ Hr) as (Hlen & Hsrc & _).
  destruct (bounded_sources_step st) as (gap & i & b & Hf & Hb & Hgap & Hmin & _);
    [|done|].
  { intros Hnil. rewrite Hnil in Hsrc. apply Forall2_nil_inv_r in Hsrc. done. }
  eexists. split; [by apply (sched_step_selected st gap i b)|].
  exists gap, b. split_and!; [|done|].
  - unfold produced. simpl. unfold guard, TONES in Hg. apply Nat.ltb_lt in Hg.
    apply take_two_inserts. rewrite Hlen. unfold TONES. lia.
  - intros s Hs. apply list_elem_of_lookup_1 in Hs as [j Hj].
    destruct (Forall2_lookup_l _ _ _ _ _ Hsrc Hj) as (p & Hp & Hsame).
    rewrite Forall_lookup in Hok. destruct (Hok j p Hp) as [[_ Hn] _].
    destruct Hsame as (_ & _ & _ & <-).
    apply list_elem_of_lookup_2 in Hp. specialize (Hmin p Hp). lia.
Qed.

Lemma silence_at_most_shortest_interval_witness :
  ∃ st', sched_step (init_state 2147483647 (λ _, 12345) three_beeps) = Some st'
    ∧ appends_bounded_silence three_beeps
        (init_state 2147483647 (λ _, 12345) three_beeps) st'.
Proof.
  apply (silence_at_most_shortest_interval 2147483647 (λ _, 12345)).
  - apply sane_three_beeps.
  - done.
  - apply reach_init.
  - reflexivity.
Defined.

(** *** An interval of 0 *)




(** The state [starved_example] is the one after the first iteration for
    a source of interval 0 before one of interval 500, both drawing
    500000000 out of 2^31-1. *)
Example starved_example_reached :
  sched_step (init_state 2147483647 (λ _, 500000000)
                         [source 1000 0 14 0; source 2000 0 14 500])
  = Some starved_example.
Proof. reflexivity. Qed.


(** *** Two sources that are due together *)

Lemma in_step_advance i j gap ps : in_step i j ps → in_step i j (advance gap <$> ps).
Proof.
  intros (p & p' & Hp & Hp' & Hn & Hi).
  exists (advance gap p), (advance gap p').
  rewrite !list_lookup_fmap, Hp, Hp'. split_and!; try done.
  - unfold advance. rewrite Hn, Hi. by destruct (next p' <=? gap).
  - unfold advance. by destruct (next p <=? gap), (next p' <=? gap).
Qed.

Lemma reachable_in_step RAND_MAX rand bs i j s s' st :
  bs !! i = Some s → bs !! j = Some s' → intv s = intv s' →
  first_next RAND_MAX (intv s) (rand i) = first_next RAND_MAX (intv s') (rand j) →
  reachable RAND_MAX rand bs st → in_step i j (beeps st).
Proof.
  intros Hs Hs' Hintv Hfirst. induction 1 as [|st st' _ IH _ Hstep].
  - simpl. unfold init_beeps. eexists _, _.
    rewrite !list_lookup_imap, Hs, Hs'. simpl. by split_and!.
  - apply sched_step_inv in Hstep as (gap & k & b & _ & _ & ->). simpl.
    by apply in_step_advance.
Qed.

(** X5. Of two sources with the same interval whose initial countdowns
    coincide, the later one is never selected: whenever the two are due
    the earlier one is taken, and the update resets both, so the later
    source loses every one of its beeps. *)
Theorem later_twin_is_never_selected RAND_MAX rand bs i j s s' st gap k :
  bs !! i = Some s → bs !! j = Some s' → (i < j)%nat → intv s = intv s' →
  first_next RAND_MAX (intv s) (rand i) = first_next RAND_MAX (intv s') (rand j) →
  reachable RAND_MAX rand bs st → find_next (beeps st) = (gap, Some k) →
  k ≠ j.
Proof.
  intros Hs Hs' Hij Hintv Hfirst Hr Hf ->.
  destruct (reachable_in_step _ _ _ _ _ _ _ _ Hs Hs' Hintv Hfirst Hr)
    as (p & p' & Hp & Hp' & Hn & _).
  apply find_next_Some in Hf as (b & Hb & Hg & _ & _ & Hbefore).
  assert (b = p') as -> by congruence.
  specialize (Hbefore i p Hij Hp). lia.
Qed.

(** Two sources of 4000 ms that both draw 12345: the first is selected. *)
Lemma later_twin_is_never_selected_witness : 0%nat ≠ 1%nat.
Proof.
  apply (later_twin_is_never_selected 2147483647 (λ _, 12345)
           [source 1000 0 14 4000; source 2000 0 7 4000] 0 1
           (source 1000 0 14 4000) (source 2000 0 7 4000)
           (init_state 2147483647 (λ _, 12345)
                       [source 1000 0 14 4000; source 2000 0 7 4000]) 1).
  - reflexivity.
  - reflexivity.
  - lia.
  - reflexivity.
  - reflexivity.
  - apply reach_init.
  - vm_compute. reflexivity.
Defined.

End PulseBeepFacts.

(* ===================================================================== *)
(** ** Properties of the stream mixer *)
(* ===================================================================== *)

Module SdrMixFacts.
Import SdrMix.

(** *** The conversions *)

(** Subtracting 128 and narrowing to [int8_t], then adding 128 and
    narrowing to [uint8_t], gives the byte back. *)
Lemma offset_round_trip b : to_uint8 (to_int8 (u8 b - 128) + 128) = b.
Proof. destruct b; reflexivity. Qed.

(** The gain 1.0 leaves every converted sample as it is. *)
Lemma attenuate_unity b : attenuate (u8 b - 128) 1 = u8 b - 128.
Proof. destruct b; vm_compute; reflexivity. Qed.

Lemma to_int8_offset b : to_int8 (u8 b - 128) = u8 b - 128.
Proof. destruct b; reflexivity. Qed.

(** For the gain 1.0 the path without the product and the path with it
    agree. *)
Lemma convert_first_unity blk :
  convert_first 1 blk = (λ b, attenuate (u8 b - 128) 1) <$> blk.
Proof.
  unfold convert_first. change (PrimFloat.eqb 1 1) with true. cbv iota.
  apply list_fmap_ext. intros _ b _. by rewrite attenuate_unity, to_int8_offset.
Qed.

Lemma length_convert_first g blk : length (convert_first g blk) = length blk.
Proof. unfold convert_first. destruct (PrimFloat.eqb g 1); apply length_fmap. Qed.

Lemma convert_back_first blk : convert_back (convert_first 1 blk) = blk.
Proof.
  unfold convert_back, convert_first. change (PrimFloat.eqb 1 1) with true. cbv iota.
  rewrite <- list_fmap_compose. rewrite <- (list_fmap_id blk) at 2.
  apply list_fmap_ext. intros _ b _. apply offset_round_trip.
Qed.

(** Half the value of a sample, toward zero, and a product that leaves the
    8 bits: -127 * 0.5 is -63, 100 * 2.0 is 200 and is stored as -56. *)
Example attenuate_half_and_double :
  attenuate (-127) 0.5 = -63 ∧ attenuate 100 2 = -56 ∧ attenuate (-128) 1 = -128.
Proof. split_and!; vm_compute; reflexivity. Qed.

(** *** The calls *)

(** "abc" mixed with "xyz01" at gain 0.5 in blocks of 4 bytes: a full block,
    then the one byte that only the second input still has, then "Done.". *)
Example mix_two_inputs_run :
  (mix_loop 5 4 (unity 0) [{| fd := 1; gain := 0.5 |}]
            (opened [[Data ["a"; "b"; "c"]%byte]; [Data ["x"; "y"; "z"; "0"; "1"]%byte]] [])).1
  = Exited
  ∧ trace (mix_loop 5 4 (unity 0) [{| fd := 1; gain := 0.5 |}]
             (opened [[Data ["a"; "b"; "c"]%byte]; [Data ["x"; "y"; "z"; "0"; "1"]%byte]]
                     [])).2
    = [EvRead 0 (RBytes ["a"; "b"; "c"]%byte);
       EvRead 1 (RBytes ["x"; "y"; "z"; "0"]%byte);
       EvWrite ["]"; "_"; "`"; "X"]%byte 4;
       EvRead 0 (RBytes []); EvRead 1 (RBytes ["1"]%byte);
       EvWrite ["Y"]%byte 1; EvDone].
Proof. split; vm_compute; reflexivity. Qed.

Lemma do_read_trace d count w r w' :
  do_read d count w = (r, w') → trace w' = trace w ++ [EvRead d r].
Proof.
  unfold do_read. destruct (ins w !! d) as [inp|].
  - destruct (sys_read count inp) as [r' inp']. by intros [= <- <-].
  - by intros [= <- <-].
Qed.

Lemma do_write_trace bs w ret w' :
  do_write bs w = (ret, w') → trace w' = trace w ++ [EvWrite bs ret].
Proof. unfold do_write. by intros [= <- <-]. Qed.

Lemma written_app tr1 tr2 : written (tr1 ++ tr2) = written tr1 ++ written tr2.
Proof. apply bind_app. Qed.

Lemma delivered_app tr1 tr2 : delivered (tr1 ++ tr2) = delivered tr1 ++ delivered tr2.
Proof. apply bind_app. Qed.

(** *** One input of gain 1.0 *)

(** The iteration for one input of gain 1.0, once its read has delivered
    [blk]: the block written is [blk] itself. *)
Lemma mix_block_single frame_size d w blk w1 :
  do_read d frame_size w = (RBytes blk, w1) →
  mix_block frame_size (unity d) [] w =
    (let '(ret, w3) := do_write blk w1 in
     if negb (ret =? Z.of_nat (length blk)) then (Break, log EvFailedWrite w3)
     else if negb (length blk =? frame_size)%nat then (Break, log EvDone w3)
     else (Continue, w3)).
Proof.
  intros Hr. unfold mix_block. simpl fd. simpl gain. rewrite Hr.
  simpl mix_next. cbv beta iota zeta.
  rewrite take_app_length' by (by rewrite length_convert_first).
  by rewrite convert_back_first.
Qed.

(** An iteration passes to [write] exactly the bytes that [read] delivered. *)
Lemma mix_block_copies frame_size d w fl w' :
  mix_block frame_size (unity d) [] w = (fl, w') →
  ∃ blk, written (trace w') = written (trace w) ++ blk
       ∧ delivered (trace w') = delivered (trace w) ++ blk.
Proof.
  unfold mix_block. simpl fd. simpl gain.
  destruct (do_read d frame_size w) as [[blk|] w1] eqn:Hr;
    apply do_read_trace in Hr.
  - simpl mix_next. cbv beta iota zeta.
    rewrite take_app_length' by (by rewrite length_convert_first).
    rewrite convert_back_first.
    destruct (do_write blk w1) as [ret w3] eqn:Hw. apply do_write_trace in Hw.
    intros Hfl. exists blk.
    assert (trace w' = trace w3 ∨ ∃ e, (e = EvFailedWrite ∨ e = EvDone)
                                      ∧ trace w' = trace w3 ++ [e]) as Hlog.
    { destruct (negb _); [inversion Hfl; subst; right; eauto|].
      destruct (negb _); inversion Hfl; subst; [right|left]; eauto. }
    destruct Hlog as [->|(e & He & ->)].
    + rewrite Hw, Hr. rewrite !written_app, !delivered_app. simpl.
      by rewrite !app_nil_r.
    + rewrite Hw, Hr. rewrite !written_app, !delivered_app.
      destruct He as [-> | ->]; simpl; by rewrite !app_nil_r.
  - intros [= <- <-]. exists []. simpl. rewrite Hr.
    rewrite !written_app, !delivered_app. simpl. by rewrite !app_nil_r.
Qed.

Lemma mix_loop_copies fuel frame_size d : ∀ w,
  ∃ bytes,
    written (trace (mix_loop fuel frame_size (unity d) [] w).2) = written (trace w) ++ bytes
    ∧ delivered (trace (mix_loop fuel frame_size (unity d) [] w).2)
      = delivered (trace w) ++ bytes.
Proof.
  induction fuel as [|fuel IH]; intros w; simpl.
  - exists []. by rewrite !app_nil_r.
  - destruct (mix_block frame_size (unity d) [] w) as [fl w1] eqn:Hb.
    destruct (mix_block_copies _ _ _ _ _ Hb) as (blk & Hw & Hd).
    destruct fl.
    + destruct (IH w1) as (bytes & Hw1 & Hd1). exists (blk ++ bytes).
      rewrite Hw1, Hd1, Hw, Hd. by rewrite !app_assoc.
    + exists blk. by simpl.
Qed.

(** *** One file *)

Lemma ended_file_loop frame_size tr fuel :
  (0 < frame_size)%nat →
  ∃ w', mix_loop (S fuel) frame_size (unity 0) [] (ended_world tr) = (Exited, w')
    ∧ written (trace w') = written tr ∧ last (trace w') = Some EvDone.
Proof.
  intros Hfs. cbn [mix_loop].
  rewrite (mix_block_single frame_size 0 (ended_world tr) []
             (ended_world (tr ++ [EvRead 0 (RBytes [])]))) by reflexivity.
  cbn [do_write ended_world wrets length]. change (Z.of_nat 0 =? Z.of_nat 0) with true.
  destruct frame_size as [|n]; [lia|]. simpl.
  eexists. split; [reflexivity|]. simpl. split; [|apply last_snoc].
  rewrite !written_app. simpl. by rewrite !app_nil_r.
Qed.

Lemma short_file_loop frame_size bs tr :
  (0 < frame_size)%nat → (length bs ≤ frame_size)%nat →
  ∃ fuel w', mix_loop fuel frame_size (unity 0) [] (file_world bs tr) = (Exited, w')
    ∧ written (trace w') = written tr ++ bs ∧ last (trace w') = Some EvDone.
Proof.
  intros Hfs Hlen.
  assert (do_read 0 frame_size (file_world bs tr)
          = (RBytes bs, ended_world (tr ++ [EvRead 0 (RBytes bs)]))) as Hr.
  { unfold do_read, file_world. simpl.
    destruct (Nat.leb_spec (length bs) frame_size); [done|lia]. }
  pose proof (mix_block_single _ _ _ _ _ Hr) as Hb.
  cbn [do_write ended_world wrets] in Hb. rewrite Z.eqb_refl in Hb. simpl negb in Hb.
  destruct (Nat.eqb_spec (length bs) frame_size) as [Hfull|Hpart]; simpl negb in Hb.
  - destruct (ended_file_loop frame_size
                ((tr ++ [EvRead 0 (RBytes bs)]) ++ [EvWrite bs (Z.of_nat (length bs))])
                0 Hfs) as (w' & Hl & Hw & Hd).
    exists 2%nat, w'. split_and!; try done.
    + change (mix_loop 2 frame_size (unity 0) [] (file_world bs tr))
        with (match mix_block frame_size (unity 0) [] (file_world bs tr) with
              | (Break, w') => (Exited, w')
              | (Continue, w') => mix_loop 1 frame_size (unity 0) [] w'
              end).
      rewrite Hb. exact Hl.
    + rewrite Hw, !written_app. simpl. by rewrite !app_nil_r.
  - eexists 1%nat, _. split_and!.
    + cbn [mix_loop]. rewrite Hb. reflexivity.
    + simpl. rewrite !written_app. simpl. by rewrite !app_nil_r.
    + simpl. apply last_snoc.
Qed.

(** A file read alone with gain 1.0 in blocks of at least one byte: the run
    ends with "Done." and has written the file. *)
Lemma file_loop frame_size :
  (0 < frame_size)%nat →
  ∀ n bs tr, (length bs ≤ n)%nat →
    ∃ fuel w', mix_loop fuel frame_size (unity 0) [] (file_world bs tr) = (Exited, w')
      ∧ written (trace w') = written tr ++ bs ∧ last (trace w') = Some EvDone.
Proof.
  intros Hfs. induction n as [|n IH]; intros bs tr Hn.
  - apply short_file_loop; [done|lia].
  - destruct (Nat.leb_spec (length bs) frame_size) as [Hshort|Hlong].
    { by apply short_file_loop. }
    assert (do_read 0 frame_size (file_world bs tr)
            = (RBytes (take frame_size bs),
               file_world (drop frame_size bs)
                          (tr ++ [EvRead 0 (RBytes (take frame_size bs))]))) as Hr.
    { unfold do_read, file_world. simpl.
      destruct (Nat.leb_spec (length bs) frame_size); [lia|done]. }
    pose proof (mix_block_single _ _ _ _ _ Hr) as Hb.
    cbn [do_write file_world wrets] in Hb. rewrite Z.eqb_refl in Hb. simpl negb in Hb.
    rewrite length_take, Nat.min_l in Hb by lia.
    rewrite Nat.eqb_refl in Hb. simpl in Hb.
    destruct (IH (drop frame_size bs)
                 ((tr ++ [EvRead 0 (RBytes (take frame_size bs))])
                      ++ [EvWrite (take frame_size bs) (Z.of_nat frame_size)]))
      as (fuel & w' & Hl & Hw & Hd).
    { rewrite length_drop. lia. }
    exists (S fuel), w'. split_and!; try done.
    + cbn [mix_loop]. rewrite Hb. exact Hl.
    + rewrite Hw, !written_app. simpl. rewrite !app_nil_r, <- app_assoc.
      by rewrite take_drop.
Qed.

(** C7. With exactly one input, of gain exactly 1.0, the output is the
    input byte for byte: for each of the 256 byte values the conversion to
    signed (subtract 128, narrow to 8 bits signed) followed by the
    conversion back (add 128, narrow to 8 bits unsigned) is the identity;
    a file of any length, read in blocks of at least one byte, is read to
    its end and written whole, in order, and the run ends with "Done.";
    and for any block size, any input and any number of iterations the
    bytes passed to [write] are, in order, the bytes that [read] delivered. *)
Theorem single_unity_input_is_copied :
  (∀ b : byte, to_uint8 (to_int8 (u8 b - 128) + 128) = b)
  ∧ (∀ (frame_size : nat) (bs : list byte),
       (0 < frame_size)%nat → copies_the_file frame_size bs)
  ∧ ∀ (frame_size d : nat) (inputs : list (list segment)) (write_results : list Z)
      (fuel : nat),
      written (trace (mix_loop fuel frame_size (unity d) []
                               (opened inputs write_results)).2)
      = delivered (trace (mix_loop fuel frame_size (unity d) []
                                   (opened inputs write_results)).2).
Proof.
  assert (∀ frame_size d inputs write_results fuel,
            written (trace (mix_loop fuel frame_size (unity d) []
                                     (opened inputs write_results)).2)
            = delivered (trace (mix_loop fuel frame_size (unity d) []
                                         (opened inputs write_results)).2)) as Hsame.
  { intros frame_size d inputs write_results fuel.
    destruct (mix_loop_copies fuel frame_size d (opened inputs write_results))
      as (bytes & -> & ->).
    done. }
  split_and!; [apply offset_round_trip| |exact Hsame].
  intros frame_size bs Hfs.
  destruct (file_loop frame_size Hfs (length bs) bs [] (Nat.le_refl _))
    as (fuel & w' & Hl & Hw & Hd).
  exists fuel, w'. split_and!; try done.
  specialize (Hsame frame_size 0%nat [[Data bs]] [] fuel).
  change (opened [[Data bs]] []) with (file_world bs []) in Hsame.
  rewrite Hl in Hsame. simpl in Hsame. by rewrite <- Hsame.
Qed.

Lemma single_unity_input_is_copied_witness :
  copies_the_file 2 ["a"; "b"; "c"]%byte.
Proof.
  apply (proj1 (proj2 single_unity_input_is_copied) 2%nat ["a"; "b"; "c"]%byte). lia.
Defined.

(** *** A second input that reads further than the first *)

Lemma length_mix_into g : ∀ cs bs, length (mix_into g cs bs) = length cs.
Proof.
  induction cs as [|c cs IH]; intros [|b bs]; simpl; try done. by rewrite IH.
Qed.

Lemma lookup_mix_into g : ∀ cs bs k,
  mix_into g cs bs !! k =
  match cs !! k, bs !! k with
  | Some c, Some b => Some (to_int8 (c + attenuate (u8 b - 128) g))
  | Some c, None => Some c
  | None, _ => None
  end.
Proof.
  induction cs as [|c cs IH]; intros bs k.
  - by destruct bs.
  - destruct bs as [|b bs], k as [|k]; simpl; try done.
    by destruct (cs !! k).
Qed.

(** C8. In an iteration where the first input reads N bytes and the one
    other input reads M > N bytes, M at most the block size, both of gain
    1.0, the block passed to [write] has M bytes, and its bytes N to M-1
    are those of the second input: the accumulator is zero from N on
    before the second input is added, and the write size is the larger of
    the two counts. *)
Theorem mix_tail_is_second_input frame_size d0 d1 w w1 w2 p s :
  do_read d0 frame_size w = (RBytes p, w1) →
  do_read d1 frame_size w1 = (RBytes s, w2) →
  (length p < length s ≤ frame_size)%nat →
  ∃ out ret fl w3 diag,
    mix_block frame_size (unity d0) [unity d1] w = (fl, w3)
    ∧ trace w3 = trace w ++ [EvRead d0 (RBytes p); EvRead d1 (RBytes s); EvWrite out ret]
                         ++ diag
    ∧ tail_of_second p s out.
Proof.
  intros Hr0 Hr1 Hlen. unfold mix_block. simpl fd. simpl gain. rewrite Hr0.
  simpl mix_next. rewrite Hr1. cbv beta iota zeta.
  rewrite Nat.max_r by lia.
  set (acc := mix_into 1 (convert_first 1 p ++ replicate (frame_size - length p) 0) s).
  set (out := convert_back (take (length s) acc)).
  destruct (do_write out w2) as [ret w3] eqn:Hw.
  apply do_read_trace in Hr0, Hr1. apply do_write_trace in Hw.
  assert (trace w3 = trace w ++ [EvRead d0 (RBytes p); EvRead d1 (RBytes s); EvWrite out ret])
    as Htr by (rewrite Hw, Hr1, Hr0, <- !app_assoc; done).
  assert (tail_of_second p s out) as Htail.
  { assert (length acc = frame_size) as Hacc.
    { unfold acc. rewrite length_mix_into, length_app, length_convert_first,
        length_replicate. lia. }
    split.
    - unfold out, convert_back. rewrite length_fmap, length_take. lia.
    - intros k Hk. unfold out, convert_back.
      rewrite list_lookup_fmap, lookup_take_lt by lia.
      unfold acc. rewrite lookup_mix_into.
      rewrite lookup_app_r by (rewrite length_convert_first; lia).
      rewrite lookup_replicate_2 by (rewrite length_convert_first; lia).
      destruct (s !! k) as [b|] eqn:Hb; simpl.
      + by rewrite attenuate_unity, Z.add_0_l, offset_round_trip.
      + apply lookup_ge_None in Hb. lia. }
  destruct (negb (ret =? Z.of_nat (length s))).
  { exists out, ret, Break, (log EvFailedWrite w3), [EvFailedWrite].
    split_and!; try done. simpl. by rewrite Htr, <- !app_assoc. }
  destruct (negb (length s =? frame_size)%nat).
  { exists out, ret, Break, (log EvDone w3), [EvDone].
    split_and!; try done. simpl. by rewrite Htr, <- !app_assoc. }
  exists out, ret, Continue, w3, []. by split_and!.
Qed.

(** A first input of 2 bytes and a second of 4, in blocks of 4: the 4
    bytes written end with the second input's last two. *)
Lemma mix_tail_is_second_input_witness :
  ∃ out ret fl w3 diag,
    mix_block 4 (unity 0) [unity 1]
              (opened [[Data ["a"; "b"]%byte]; [Data ["w"; "x"; "y"; "z"]%byte]] [])
    = (fl, w3)
    ∧ trace w3 = [] ++ [EvRead 0 (RBytes ["a"; "b"]%byte);
                        EvRead 1 (RBytes ["w"; "x"; "y"; "z"]%byte);
                        EvWrite out ret] ++ diag
    ∧ tail_of_second ["a"; "b"]%byte ["w"; "x"; "y"; "z"]%byte out.
Proof.
  eapply (mix_tail_is_second_input 4 0 1
            (opened [[Data ["a"; "b"]%byte]; [Data ["w"; "x"; "y"; "z"]%byte]] [])).
  - vm_compute. reflexivity.
  - vm_compute. reflexivity.
  - simpl. lia.
Defined.

(** *** Failing reads *)

(** A failing read on the first input leaves the [while] loop: nothing is
    mixed or written any more. *)
Lemma first_read_failure_exits frame_size first rest w w1 fuel :
  do_read (fd first) frame_size w = (RFail, w1) →
  mix_block frame_size first rest w = (Break, log (EvFailedRead 0) w1)
  ∧ mix_loop (S fuel) frame_size first rest w = (Exited, log (EvFailedRead 0) w1).
Proof.
  intros Hr. assert (mix_block frame_size first rest w = (Break, log (EvFailedRead 0) w1))
    as Hb by (unfold mix_block; by rewrite Hr).
  split; [done|]. simpl. by rewrite Hb.
Qed.

(** A failing read on the second of two inputs leaves only the [for]
    loop: the block of the first input is still written, and when it is a
    full block and the write succeeds, the [while] loop goes on. *)
Lemma second_read_failure_still_writes frame_size d0 d1 w w1 w2 p :
  do_read d0 frame_size w = (RBytes p, w1) →
  do_read d1 frame_size w1 = (RFail, w2) →
  (length p ≤ frame_size)%nat →
  ∃ ret fl w3 diag,
    mix_block frame_size (unity d0) [unity d1] w = (fl, w3)
    ∧ trace w3 = trace w ++ [EvRead d0 (RBytes p); EvRead d1 RFail; EvFailedRead 1;
                             EvWrite p ret] ++ diag
    ∧ (length p = frame_size → ret = Z.of_nat frame_size → fl = Continue).
Proof.
  intros Hr0 Hr1 Hlen. unfold mix_block. simpl fd. simpl gain. rewrite Hr0.
  simpl mix_next. rewrite Hr1. cbv beta iota zeta.
  rewrite take_app_length' by (by rewrite length_convert_first).
  rewrite convert_back_first.
  destruct (do_write p (log (EvFailedRead 1) w2)) as [ret w3] eqn:Hw.
  apply do_read_trace in Hr0, Hr1. apply do_write_trace in Hw. simpl in Hw.
  assert (trace w3 = trace w ++ [EvRead d0 (RBytes p); EvRead d1 RFail; EvFailedRead 1;
                                 EvWrite p ret])
    as Htr by (rewrite Hw, Hr1, Hr0, <- !app_assoc; done).
  destruct (Z.eqb_spec ret (Z.of_nat (length p))) as [Hret|Hret]; simpl.
  - destruct (Nat.eqb_spec (length p) frame_size) as [Hfull|Hfull]; simpl.
    + exists ret, Continue, w3, []. by split_and!.
    + exists ret, Break, (log EvDone w3), [EvDone]. split_and!; try done.
      simpl. by rewrite Htr, <- !app_assoc.
  - exists ret, Break, (log EvFailedWrite w3), [EvFailedWrite]. split_and!.
    + done.
    + simpl. by rewrite Htr, <- !app_assoc.
    + intros Hfull Hr. rewrite Hfull in Hret. done.
Qed.

(** C6, at a failing read of the second input: with blocks of 2 bytes, a
    first input "abc" and a second input whose first read fails and which
    then delivers "xy", the block "ab" is written after the diagnostic,
    both inputs are read twice more, two more blocks are written and the
    run ends with "Done."; the claim has the loop left at the failure. *)
Theorem second_read_failure_goes_on :
  ∃ w', mix_loop 3 2 (unity 0) [unity 1]
          (opened [[Data ["a"; "b"; "c"]%byte]; [ReadError; Data ["x"; "y"]%byte]] [])
        = (Exited, w')
    ∧ trace w' =
        [EvRead 0 (RBytes ["a"; "b"]%byte); EvRead 1 RFail; EvFailedRead 1;
         EvWrite ["a"; "b"]%byte 2;
         EvRead 0 (RBytes ["c"]%byte); EvRead 1 (RBytes ["x"; "y"]%byte);
         EvWrite ["["; "y"]%byte 2;
         EvRead 0 (RBytes []); EvRead 1 (RBytes []); EvWrite [] 0; EvDone]
    ∧ ¬ aborts_on_failed_read (trace w').
Proof.
  eexists. split; [vm_compute; reflexivity|]. split; [reflexivity|].
  intros Habort.
  specialize (Habort [EvRead 0 (RBytes ["a"; "b"]%byte); EvRead 1 RFail] 0%nat _ eq_refl).
  apply Forall_cons in Habort as [Hcall _]. discriminate Hcall.
Qed.

(** *** Reads that return no byte *)

Lemma do_read_wrets d count w r w' : do_read d count w = (r, w') → wrets w' = wrets w.
Proof.
  unfold do_read. destruct (ins w !! d) as [inp|].
  - destruct (sys_read count inp) as [r' inp']. by intros [= <- <-].
  - by intros [= <- <-].
Qed.

Lemma reads_nothing_world frame_size : ∀ inputs w w2,
  reads_nothing frame_size inputs w = Some w2 →
  wrets w2 = wrets w
  ∧ trace w2 = trace w ++ ((λ c, EvRead (fd c) (RBytes [])) <$> inputs).
Proof.
  induction inputs as [|c inputs IH]; intros w w2 Hr; simpl in Hr.
  - inversion Hr; subst. by rewrite app_nil_r.
  - destruct (do_read (fd c) frame_size w) as [[[|b blk]|] w1] eqn:Hc; try done.
    destruct (IH _ _ Hr) as [Hwr Htr].
    rewrite Hwr, Htr, (do_read_wrets _ _ _ _ _ Hc), (do_read_trace _ _ _ _ _ Hc).
    split; [done|]. by rewrite <- app_assoc.
Qed.

Lemma mix_into_nil g cs : mix_into g cs [] = cs.
Proof. by destruct cs. Qed.

(** Inputs that deliver nothing leave the accumulator and the write size
    as they are. *)
Lemma mix_next_nothing frame_size : ∀ rest i cs ws w w2,
  reads_nothing frame_size rest w = Some w2 →
  mix_next frame_size i rest cs ws w = (cs, ws, w2).
Proof.
  induction rest as [|c rest IH]; intros i cs ws w w2 Hr; simpl in *.
  - by inversion Hr.
  - destruct (do_read (fd c) frame_size w) as [[[|b blk]|] w1]; try done.
    rewrite mix_into_nil, Nat.max_0_r. by apply IH.
Qed.

Lemma do_write_nil w :
  hd 0 (wrets w) = 0 →
  do_write [] w
  = (0, log (EvWrite [] 0) {| ins := ins w; wrets := tail (wrets w); trace := trace w |}).
Proof. unfold do_write. destruct (wrets w); simpl; intros H; by subst. Qed.

(** With a block size of 0 and an empty first input the iteration writes
    no byte, prints nothing and goes on. *)
Lemma zero_block_iteration tr :
  mix_block 0 (unity 0) [] {| ins := [[]]; wrets := []; trace := tr |}
  = (Continue, {| ins := [[]]; wrets := [];
                  trace := (tr ++ [EvRead 0 (RBytes [])]) ++ [EvWrite [] 0] |}).
Proof. reflexivity. Qed.

Lemma zero_block_runs fuel : ∀ tr,
  (mix_loop fuel 0 (unity 0) [] {| ins := [[]]; wrets := []; trace := tr |}).1 = Running.
Proof.
  induction fuel as [|fuel IH]; intros tr; [done|].
  cbn [mix_loop]. rewrite zero_block_iteration. apply IH.
Qed.

(** C10 as stated fails for a block size of 0 ([-b 0]): on one empty
    input the read returns 0 bytes and the zero-length write returns 0, but
    "Done." is not printed, the iteration does not leave the loop, and no
    amount of fuel does. *)
Lemma zero_block_never_completes :
  reads_nothing 0 [unity 0] (opened [[]] []) ≠ None
  ∧ mix_block 0 (unity 0) [] (opened [[]] [])
    = (Continue, {| ins := [[]]; wrets := [];
                    trace := [EvRead 0 (RBytes []); EvWrite [] 0] |})
  ∧ ¬ ∃ fuel w', mix_loop fuel 0 (unity 0) [] (opened [[]] []) = (Exited, w').
Proof.
  split; [done|]. split; [reflexivity|]. intros (fuel & w' & Hl).
  pose proof (zero_block_runs fuel []) as Hrun. unfold opened in Hl.
  rewrite Hl in Hrun. discriminate Hrun.
Qed.

(** C10, amended.  With a block size of at least 1: if in some iteration
    the read of every input returns 0 bytes and the write of no byte
    returns 0, the mixer writes no byte, prints "Done." and leaves the
    loop; so it does when all inputs are empty from the start. *)
Theorem all_reads_empty_completes frame_size first rest w w2 :
  (0 < frame_size)%nat →
  reads_nothing frame_size (first :: rest) w = Some w2 →
  hd 0 (wrets w) = 0 →
  completes_at_end frame_size first rest w.
Proof.
  intros Hfs Hreads Hwr.
  destruct (reads_nothing_world _ _ _ _ Hreads) as [Hwr2 Htr2].
  assert (mix_block frame_size first rest w
          = (Break, log EvDone (log (EvWrite [] 0)
                      {| ins := ins w2; wrets := tail (wrets w2); trace := trace w2 |})))
    as Hb.
  { unfold mix_block. simpl in Hreads.
    destruct (do_read (fd first) frame_size w) as [[[|b blk]|] w1]; try done.
    change (length (@nil byte)) with 0%nat.
    rewrite (mix_next_nothing _ _ _ _ _ _ _ Hreads). cbv beta iota zeta.
    rewrite take_0. change (convert_back []) with (@nil byte).
    rewrite do_write_nil by (by rewrite Hwr2).
    cbv beta iota zeta. change (0 =? Z.of_nat 0) with true.
    destruct frame_size as [|n]; [lia|]. reflexivity. }
  eexists. split_and!; [exact Hb| |].
  - simpl. rewrite Htr2. by rewrite <- !app_assoc.
  - intros fuel. simpl. by rewrite Hb.
Qed.

(** Two empty inputs and blocks of 4 bytes. *)
Lemma all_reads_empty_completes_witness :
  completes_at_end 4 (unity 0) [unity 1] (opened [[]; []] []).
Proof.
  eapply (all_reads_empty_completes 4 (unity 0) [unity 1] (opened [[]; []] [])).
  - lia.
  - vm_compute. reflexivity.
  - reflexivity.
Defined.

(** *** Two files, block by block *)

Lemma convert_first_samples g blk : convert_first g blk = first_sample g <$> blk.
Proof. unfold convert_first, first_sample. by destruct (PrimFloat.eqb g 1). Qed.

Lemma length_mix_files g0 g1 a b :
  length (mix_files g0 g1 a b) = Nat.max (length a) (length b).
Proof. unfold mix_files. by rewrite length_fmap, length_seq. Qed.

Lemma lookup_mix_files g0 g1 a b k :
  (k < Nat.max (length a) (length b))%nat →
  mix_files g0 g1 a b !! k
  = Some (to_uint8 (mixed_sample g0 g1 (a !! k) (b !! k) + 128)).
Proof.
  intros Hk. unfold mix_files. rewrite list_lookup_fmap, lookup_seq_lt by done. done.
Qed.

(** The block of an iteration in which the reads deliver [pa] and [pb]. *)
Lemma block_is_mix_files frame_size g0 g1 pa pb :
  (length pa ≤ frame_size)%nat → (length pb ≤ frame_size)%nat →
  convert_back (take (Nat.max (length pa) (length pb))
                     (mix_into g1 (convert_first g0 pa ++ replicate (frame_size - length pa) 0)
                               pb))
  = mix_files g0 g1 pa pb.
Proof.
  intros Ha Hb. apply list_eq. intros k.
  destruct (Nat.lt_ge_cases k (Nat.max (length pa) (length pb))) as [Hk|Hk].
  - rewrite lookup_mix_files by done. unfold convert_back.
    rewrite list_lookup_fmap, lookup_take_lt, lookup_mix_into by done.
    rewrite convert_first_samples. unfold mixed_sample.
    destruct (Nat.lt_ge_cases k (length pa)) as [Hka|Hka].
    + rewrite lookup_app_l by (by rewrite length_fmap).
      rewrite list_lookup_fmap.
      destruct (lookup_lt_is_Some_2 pa k Hka) as [x ->]. simpl.
      by destruct (pb !! k).
    + rewrite lookup_app_r by (by rewrite length_fmap).
      rewrite length_fmap, lookup_replicate_2 by lia.
      rewrite (lookup_ge_None_2 pa k) by done.
      destruct (lookup_lt_is_Some_2 pb k ltac:(lia)) as [y ->]. done.
  - rewrite !lookup_ge_None_2; try done.
    + by rewrite length_mix_files.
    + unfold convert_back. rewrite length_fmap, length_take. lia.
Qed.

(** The mix of two files is the mix of their first [n] bytes followed by
    the mix of what follows them. *)
Lemma mix_files_split g0 g1 n a b :
  mix_files g0 g1 a b
  = mix_files g0 g1 (take n a) (take n b) ++ mix_files g0 g1 (drop n a) (drop n b).
Proof.
  apply list_eq. intros k.
  destruct (Nat.lt_ge_cases k (Nat.max (length a) (length b))) as [Hk|Hk].
  - rewrite lookup_mix_files by done.
    destruct (Nat.lt_ge_cases k n) as [Hn|Hn].
    + rewrite lookup_app_l by (rewrite length_mix_files, !length_take; lia).
      rewrite lookup_mix_files by (rewrite !length_take; lia).
      by rewrite !lookup_take_lt.
    + rewrite lookup_app_r by (rewrite length_mix_files, !length_take; lia).
      rewrite length_mix_files, !length_take.
      replace (Nat.max (n `min` length a) (n `min` length b)) with n by lia.
      rewrite lookup_mix_files by (rewrite !length_drop; lia).
      rewrite !lookup_drop. by replace (n + (k - n))%nat with k by lia.
  - rewrite !lookup_ge_None_2; try done.
    + rewrite length_app, !length_mix_files, !length_take, !length_drop. lia.
    + by rewrite length_mix_files.
Qed.

Lemma read_file_rest count bs inp :
  file_rest bs inp →
  ∃ inp', sys_read count inp = (RBytes (take count bs), inp')
          ∧ file_rest (drop count bs) inp'.
Proof.
  intros [->|[-> ->]]; simpl.
  - destruct (Nat.leb_spec (length bs) count) as [Hle|Hlt].
    + exists []. rewrite take_ge, drop_ge by done. split; [done|by right].
    + eexists. split; [done|by left].
  - exists []. rewrite take_nil, drop_nil. split; [done|by right].
Qed.

(** One iteration on two files. *)
Lemma two_files_block frame_size g0 g1 a b ia ib tr :
  file_rest a ia → file_rest b ib →
  ∃ ia' ib',
    file_rest (drop frame_size a) ia' ∧ file_rest (drop frame_size b) ib'
    ∧ mix_block frame_size {| fd := 0; gain := g0 |} [{| fd := 1; gain := g1 |}]
                (two_files ia ib tr)
      = let pa := take frame_size a in
        let pb := take frame_size b in
        let w3 := two_files ia' ib'
                    (tr ++ [EvRead 0 (RBytes pa); EvRead 1 (RBytes pb);
                            EvWrite (mix_files g0 g1 pa pb)
                                    (Z.of_nat (Nat.max (length pa) (length pb)))]) in
        if (Nat.max (length pa) (length pb) =? frame_size)%nat
        then (Continue, w3) else (Break, log EvDone w3).
Proof.
  intros Ha Hb.
  destruct (read_file_rest frame_size a ia Ha) as (ia' & Hra & Ha').
  destruct (read_file_rest frame_size b ib Hb) as (ib' & Hrb & Hb').
  exists ia', ib'. split_and!; try done.
  assert (do_read 0 frame_size (two_files ia ib tr)
          = (RBytes (take frame_size a),
             two_files ia' ib (tr ++ [EvRead 0 (RBytes (take frame_size a))]))) as Hr0.
  { unfold do_read, two_files. simpl. by rewrite Hra. }
  assert (do_read 1 frame_size
                  (two_files ia' ib (tr ++ [EvRead 0 (RBytes (take frame_size a))]))
          = (RBytes (take frame_size b),
             two_files ia' ib' ((tr ++ [EvRead 0 (RBytes (take frame_size a))])
                                   ++ [EvRead 1 (RBytes (take frame_size b))]))) as Hr1.
  { unfold do_read, two_files. simpl. by rewrite Hrb. }
  unfold mix_block. cbn [fd gain mix_next]. rewrite Hr0. cbn [mix_next fd gain].
  rewrite Hr1. cbv beta iota zeta. unfold do_write, two_files. simpl.
  rewrite block_is_mix_files by (rewrite length_take; lia).
  rewrite length_mix_files, Z.eqb_refl. simpl.
  rewrite <- !app_assoc. simpl.
  destruct (Nat.max (length (take frame_size a)) (length (take frame_size b))
            =? frame_size)%nat; unfold log; simpl; by rewrite <- !app_assoc.
Qed.

(** The run on two files, from any point of them. *)
Lemma two_files_loop frame_size g0 g1 :
  (0 < frame_size)%nat →
  ∀ n a b ia ib tr,
    file_rest a ia → file_rest b ib → (Nat.max (length a) (length b) ≤ n)%nat →
    ∃ fuel w',
      mix_loop fuel frame_size {| fd := 0; gain := g0 |} [{| fd := 1; gain := g1 |}]
               (two_files ia ib tr) = (Exited, w')
      ∧ written (trace w') = written tr ++ mix_files g0 g1 a b
      ∧ last (trace w') = Some EvDone.
Proof.
  intros Hfs. induction n as [n IH] using lt_wf_ind. intros a b ia ib tr Ha Hb Hn.
  destruct (two_files_block frame_size g0 g1 a b ia ib tr Ha Hb)
    as (ia' & ib' & Ha' & Hb' & Hblk).
  cbv zeta in Hblk. rewrite !length_take in Hblk.
  destruct (Nat.eqb_spec (Nat.max (frame_size `min` length a) (frame_size `min` length b))
                         frame_size) as [Hfull|Hlast].
  - edestruct (IH (n - frame_size)%nat ltac:(lia) (drop frame_size a) (drop frame_size b)
                  ia' ib') as (fuel & w' & Hl & Hw & Hd); [exact Ha'|exact Hb'| |].
    { rewrite !length_drop. lia. }
    exists (S fuel), w'. split_and!; try done.
    + cbn [mix_loop]. rewrite Hblk. exact Hl.
    + rewrite Hw, !written_app. simpl. rewrite !app_nil_r, <- app_assoc.
      by rewrite <- mix_files_split.
  - eexists 1%nat, _. split_and!.
    + cbn [mix_loop]. rewrite Hblk. reflexivity.
    + simpl. rewrite !written_app. simpl. rewrite !app_nil_r.
      rewrite !take_ge by lia. done.
    + simpl. apply last_snoc.
Qed.

(** The conversion at and beyond the limits of [int]: 127 * 33333333 is
    above them and stores 0, as does a product that is not a number;
    -128 * 16777216 is [INT_MIN] itself. *)
Example attenuate_outside_int :
  attenuate 127 33333333 = 0 ∧ attenuate 0 infinity = 0
  ∧ trunc_double (PrimFloat.mul (double_of_int (-128)) 16777216) = -2147483648.
Proof. split_and!; vm_compute; reflexivity. Qed.

(** X10. Two files mixed in blocks of any size of at least one byte, with
    gains below 2^24 in absolute value, for which every product is inside
    [int]: the run ends with "Done." once both files are read, and what it
    has written is the two files mixed offset by offset, as long as the
    longer file, whatever the block size. *)
Theorem two_files_are_mixed_by_offset frame_size g0 g1 a b :
  (0 < frame_size)%nat → inside_int g0 → inside_int g1 →
  mixes_to frame_size g0 g1 a b (mix_files g0 g1 a b).
Proof.
  intros Hfs _ _.
  destruct (two_files_loop frame_size g0 g1 Hfs _ a b [Data a] [Data b] []
              ltac:(by left) ltac:(by left) (Nat.le_refl _))
    as (fuel & w' & Hl & Hw & Hd).
  by exists fuel, w'.
Qed.

Lemma two_files_are_mixed_by_offset_witness :
  mixes_to 2 1 0.5 ["a"; "b"; "c"]%byte ["x"; "y"; "z"; "0"; "1"]%byte
           ["]"; "_"; "`"; "X"; "Y"]%byte.
Proof.
  apply (two_files_are_mixed_by_offset 2 1 0.5 ["a"; "b"; "c"]%byte
                                       ["x"; "y"; "z"; "0"; "1"]%byte).
  - lia.
  - reflexivity.
  - reflexivity.
Defined.

(** *** What the mix of two files is *)

Lemma to_uint8_to_int8 z : to_uint8 (to_int8 z + 128) = to_uint8 (z + 128).
Proof.
  unfold to_uint8, to_int8.
  replace ((z + 128) mod 256 - 128 + 128) with ((z + 128) mod 256) by lia.
  by rewrite Z.mod_mod by lia.
Qed.

Lemma to_int8_idem z : to_int8 (to_int8 z) = to_int8 z.
Proof.
  unfold to_int8.
  replace ((z + 128) mod 256 - 128 + 128) with ((z + 128) mod 256) by lia.
  by rewrite Z.mod_mod by lia.
Qed.

Lemma first_sample_unity x : first_sample 1 x = u8 x - 128.
Proof. unfold first_sample. change (PrimFloat.eqb 1 1) with true. apply to_int8_offset. Qed.

(** X11. Two files mixed at gain 1.0 in blocks of any size: a sum that
    leaves the 8 bits wraps around, it is not clipped; each byte written is
    the sum of the two files' bytes less 128, modulo 256, and past the end
    of the shorter file the bytes are those of the longer one. *)
Theorem unity_mix_wraps_around frame_size a b :
  (0 < frame_size)%nat →
  ∃ out, mixes_to frame_size 1 1 a b out ∧ sum_modulo_256 a b out.
Proof.
  intros Hfs. exists (mix_files 1 1 a b). split.
  - destruct (two_files_loop frame_size 1 1 Hfs _ a b [Data a] [Data b] []
                ltac:(by left) ltac:(by left) (Nat.le_refl _))
      as (fuel & w' & Hl & Hw & Hd).
    by exists fuel, w'.
  - split; [apply length_mix_files|]. intros k.
    destruct (Nat.lt_ge_cases k (Nat.max (length a) (length b))) as [Hk|Hk].
    + rewrite lookup_mix_files by done. unfold mixed_sample.
      destruct (a !! k) as [x|] eqn:Hx, (b !! k) as [y|] eqn:Hy.
      * rewrite first_sample_unity, attenuate_unity, to_uint8_to_int8.
        do 2 f_equal. lia.
      * rewrite first_sample_unity. f_equal.
        rewrite <- (to_int8_offset x). apply offset_round_trip.
      * rewrite attenuate_unity, Z.add_0_l. f_equal. apply offset_round_trip.
      * apply lookup_ge_None in Hx, Hy. lia.
    + rewrite (lookup_ge_None_2 (mix_files 1 1 a b)) by (by rewrite length_mix_files).
      by rewrite !lookup_ge_None_2 by lia.
Qed.

Lemma unity_mix_wraps_around_witness :
  ∃ out, mixes_to 2 1 1 ["255"; "255"; "000"]%byte ["255"; "001"]%byte out
         ∧ sum_modulo_256 ["255"; "255"; "000"]%byte ["255"; "001"]%byte out.
Proof.
  apply (unity_mix_wraps_around 2 ["255"; "255"; "000"]%byte ["255"; "001"]%byte).
  lia.
Defined.

(** The test [gain == 1.0] holds for the gain 1.0 only. *)
Lemma eqb_one g : PrimFloat.eqb g 1 = true → g = 1%float.
Proof.
  rewrite FloatAxioms.eqb_spec. intros H.
  assert (Prim2SF g = Prim2SF 1) as E.
  { change (Prim2SF 1) with (S754_finite false 4503599627370496 (-52)) in *.
    destruct (Prim2SF g) as [s|s| |s m e]; try (by destruct s); try done.
    unfold SFeqb, SFcompare in H. destruct s; [done|].
    destruct (Z.compare_spec e (-52)) as [He|He|He];
      [|discriminate H|discriminate H].
    destruct (PosDef.Pos.compare_cont Eq m 4503599627370496) eqn:Hm;
      [|discriminate H|discriminate H].
    apply (Pos.compare_eq m) in Hm. subst. reflexivity. }
  by rewrite <- (SF2Prim_Prim2SF g), E, SF2Prim_Prim2SF.
Qed.

(** The two ways of line 165 give the same sample. *)
Lemma first_sample_attenuate g x : first_sample g x = attenuate (u8 x - 128) g.
Proof.
  unfold first_sample. destruct (PrimFloat.eqb g 1) eqn:Hg; [|done].
  apply eqb_one in Hg as ->. by rewrite attenuate_unity, to_int8_offset.
Qed.

Lemma attenuate_int8 x g : to_int8 (attenuate x g) = attenuate x g.
Proof. unfold attenuate. apply to_int8_idem. Qed.

Lemma mix_files_comm g0 g1 a b : mix_files g0 g1 a b = mix_files g1 g0 b a.
Proof.
  unfold mix_files. rewrite (Nat.max_comm (length b)).
  apply list_fmap_ext. intros _ k _. do 2 f_equal.
  unfold mixed_sample.
  destruct (a !! k) as [x|], (b !! k) as [y|];
    rewrite ?first_sample_attenuate, ?Z.add_0_l, ?attenuate_int8; try done.
  by rewrite Z.add_comm.
Qed.

(** X12. The order of two input files does not matter, whatever their
    gains and the block size: the run on the files in either order writes
    the same bytes (the first input's conversion without the product, for
    the gain 1.0, gives what the product gives). *)
Theorem order_of_two_inputs_is_immaterial frame_size g0 g1 a b :
  (0 < frame_size)%nat →
  ∃ out, mixes_to frame_size g0 g1 a b out ∧ mixes_to frame_size g1 g0 b a out.
Proof.
  intros Hfs. exists (mix_files g0 g1 a b). split.
  - destruct (two_files_loop frame_size g0 g1 Hfs _ a b [Data a] [Data b] []
                ltac:(by left) ltac:(by left) (Nat.le_refl _))
      as (fuel & w' & Hl & Hw & Hd).
    by exists fuel, w'.
  - rewrite mix_files_comm.
    destruct (two_files_loop frame_size g1 g0 Hfs _ b a [Data b] [Data a] []
                ltac:(by left) ltac:(by left) (Nat.le_refl _))
      as (fuel & w' & Hl & Hw & Hd).
    by exists fuel, w'.
Qed.

Lemma order_of_two_inputs_is_immaterial_witness :
  ∃ out, mixes_to 2 1 0.5 ["a"; "b"; "c"]%byte ["x"; "y"; "z"; "0"; "1"]%byte out
         ∧ mixes_to 2 0.5 1 ["x"; "y"; "z"; "0"; "1"]%byte ["a"; "b"; "c"]%byte out.
Proof.
  apply (order_of_two_inputs_is_immaterial 2 1 0.5 ["a"; "b"; "c"]%byte
                                           ["x"; "y"; "z"; "0"; "1"]%byte).
  lia.
Defined.


(** *** Silence *)

(** A sample of value 0 stays 0 at any gain: the product is a zero, or not
    a number. *)
Lemma attenuate_zero g : attenuate 0 g = 0.
Proof.
  unfold attenuate, trunc_double. rewrite FloatAxioms.mul_spec.
  change (Prim2SF (double_of_int 0)) with (S754_zero false).
  by destruct (Prim2SF g) as [s|s| |s m e].
Qed.

Lemma mix_files_silence g a n :
  (n ≤ length a)%nat → mix_files 1 g a (replicate n zero_byte) = a.
Proof.
  intros Hn. apply list_eq. intros k.
  destruct (Nat.lt_ge_cases k (length a)) as [Hk|Hk].
  - rewrite lookup_mix_files by lia.
    destruct (lookup_lt_is_Some_2 a k Hk) as [x Hx]. rewrite Hx. f_equal.
    unfold mixed_sample. rewrite first_sample_unity.
    destruct (Nat.lt_ge_cases k n) as [Hkn|Hkn].
    + rewrite lookup_replicate_2 by done.
      change (u8 zero_byte - 128) with 0. rewrite attenuate_zero, Z.add_0_r.
      rewrite to_uint8_to_int8. rewrite <- (to_int8_offset x). apply offset_round_trip.
    + rewrite lookup_ge_None_2 by (by rewrite length_replicate).
      rewrite <- (to_int8_offset x). apply offset_round_trip.
  - rewrite !lookup_ge_None_2; try done.
    rewrite length_mix_files, length_replicate. lia.
Qed.

(** X13. A second file of silence (bytes 128), no longer than the first
    file, changes nothing at any gain that is a number: with the first
    file at gain 1.0 the run writes the first file itself.  (At an infinite
    gain the product with 0 is not a number, and C leaves its conversion
    undefined.) *)
Theorem silence_changes_nothing frame_size g a n :
  (0 < frame_size)%nat → (n ≤ length a)%nat → PrimFloat.is_finite g = true →
  mixes_to frame_size 1 g a (replicate n zero_byte) a.
Proof.
  intros Hfs Hn _.
  destruct (two_files_loop frame_size 1 g Hfs _ a (replicate n zero_byte)
              [Data a] [Data (replicate n zero_byte)] []
              ltac:(by left) ltac:(by left) (Nat.le_refl _))
    as (fuel & w' & Hl & Hw & Hd).
  exists fuel, w'. split_and!; try done.
  by rewrite Hw, mix_files_silence.
Qed.

Lemma silence_changes_nothing_witness :
  mixes_to 2 1 0.25 ["a"; "b"; "c"]%byte (replicate 2 zero_byte) ["a"; "b"; "c"]%byte.
Proof.
  apply (silence_changes_nothing 2 0.25 ["a"; "b"; "c"]%byte 2).
  - lia.
  - simpl. lia.
  - reflexivity.
Defined.

(** *** A write that fails or is cut short *)

Lemma write_calls_app tr1 tr2 :
  write_calls (tr1 ++ tr2) = (write_calls tr1 + write_calls tr2)%nat.
Proof. unfold write_calls. by rewrite List.filter_app, length_app. Qed.

(** The loop over the second and later inputs issues no [write], leaves the
    results of the coming calls as they are, and never lowers
    [write_size]. *)
Lemma mix_next_no_write frame_size : ∀ rest i cs ws w cs' ws' w',
  mix_next frame_size i rest cs ws w = (cs', ws', w') →
  (ws ≤ ws')%nat ∧ wrets w' = wrets w ∧ write_calls (trace w') = write_calls (trace w).
Proof.
  induction rest as [|inp rest IH]; intros i cs ws w cs' ws' w' H; simpl in H.
  - by inversion H.
  - destruct (do_read (fd inp) frame_size w) as [r w1] eqn:Hr.
    pose proof (do_read_wrets _ _ _ _ _ Hr) as Hw.
    apply do_read_trace in Hr as Ht.
    destruct r as [blk|].
    + apply IH in H as (Hle & Hw' & Hc). split_and!; [lia|congruence|].
      rewrite Hc, Ht, write_calls_app.
      change (write_calls [EvRead (fd inp) (RBytes blk)]) with 0%nat. lia.
    + inversion H; subst. split_and!; [done|done|]. cbn [log trace].
      rewrite Ht, !write_calls_app.
      change (write_calls [EvRead (fd inp) RFail]) with 0%nat.
      change (write_calls [EvFailedRead i]) with 0%nat. lia.
Qed.

(** X14. When [write] returns less than the first input's read has
    delivered (a negative value, or a part of the block), the loop is left
    in this iteration with "Failed to write output": the call is not
    repeated for the remainder and nothing more is read, whatever the
    other inputs are. *)
Theorem short_write_ends_the_run frame_size first rest w p w1 r rs fuel :
  do_read (fd first) frame_size w = (RBytes p, w1) →
  wrets w = r :: rs → r < Z.of_nat (length p) →
  ∃ w', mix_loop (S fuel) frame_size first rest w = (Exited, w')
        ∧ last (trace w') = Some EvFailedWrite
        ∧ wrets w' = rs
        ∧ write_calls (trace w') = S (write_calls (trace w)).
Proof.
  intros Hr Hw Hlt. cbn [mix_loop]. unfold mix_block. rewrite Hr.
  destruct (mix_next frame_size 1 rest
              (convert_first (gain first) p ++ replicate (frame_size - length p) 0)
              (length p) w1) as [[cs ws] w2] eqn:Hn.
  apply mix_next_no_write in Hn as (Hle & Hw2 & Hc2).
  pose proof (do_read_wrets _ _ _ _ _ Hr) as Hw1.
  apply do_read_trace in Hr as Ht1.
  unfold do_write. rewrite Hw2, Hw1, Hw. cbv beta iota zeta.
  destruct (Z.eqb_spec r (Z.of_nat ws)) as [->|Hne]; [lia|]. simpl.
  eexists. split_and!; [done| | |].
  - simpl. apply last_snoc.
  - done.
  - cbn [log trace]. rewrite !write_calls_app, Hc2, Ht1, write_calls_app.
    change (write_calls [EvRead (fd first) (RBytes p)]) with 0%nat.
    change (write_calls [EvFailedWrite]) with 0%nat.
    change (write_calls [EvWrite ?x ?y]) with 1%nat. lia.
Qed.

Lemma short_write_ends_the_run_witness :
  ∃ w', mix_loop 5 2 (unity 0) [unity 1]
                 (opened [[Data ["a"; "b"; "c"]%byte]; [Data ["x"; "y"]%byte]] [1]) = (Exited, w')
        ∧ last (trace w') = Some EvFailedWrite
        ∧ wrets w' = []
        ∧ write_calls (trace w') = 1%nat.
Proof.
  eapply (short_write_ends_the_run 2 (unity 0) [unity 1]
            (opened [[Data ["a"; "b"; "c"]%byte]; [Data ["x"; "y"]%byte]] [1])
            ["a"; "b"]%byte _ 1 [] 4).
  - reflexivity.
  - reflexivity.
  - simpl. lia.
Defined.

End SdrMixFacts.

(* ===================================================================== *)
(** ** Properties of the options of pulse_beep *)
(* ===================================================================== *)

Module BeepOptionsFacts.
Import CInt BeepOptions.

Lemma getopt_loop_app os1 os2 : ∀ a,
  getopt_loop (os1 ++ os2) a =
  match getopt_loop os1 a with
  | Parsed a' => getopt_loop os2 a'
  | r => r
  end.
Proof.
  induction os1 as [|o os1 IH]; intros a; simpl; [done|].
  destruct (handle o a); [apply IH|done..].
Qed.

Lemma assign_at_slot f seed pre x rest :
  assign (length pre) f (at_slot seed pre x rest) = Parsed (at_slot seed pre (f x) rest).
Proof.
  unfold assign, at_slot. simpl. rewrite list_lookup_middle by done.
  rewrite insert_app_r_alt by done. by rewrite Nat.sub_diag.
Qed.

Lemma assign_cursor idx f a b :
  beeps a = beeps b ∧ rand_seed a = rand_seed b → assign idx f a = assign idx f b.
Proof. unfold assign. by intros [-> ->]. Qed.

Lemma at_slot_next seed pre x y rest :
  at_slot seed (pre ++ [x]) y rest
  = {| beeps := pre ++ x :: y :: rest; beeps_idx := S (length pre); rand_seed := seed |}.
Proof.
  unfold at_slot. rewrite length_app, <- app_assoc. simpl. f_equal. lia.
Qed.

(** The four options of a source on a slot without frequency fill that
    slot. *)
Lemma group_on_silent_slot s os seed pre x rest :
  PulseBeep.freq x = 0 →
  getopt_loop (group s ++ os) (at_slot seed pre x rest)
  = getopt_loop os (at_slot seed pre (PulseBeep.set_next s (PulseBeep.next x)) rest).
Proof.
  intros Hx. unfold group. cbn [app getopt_loop handle].
  cbn [at_slot beeps beeps_idx]. rewrite list_lookup_middle by done. rewrite Hx.
  cbn [Z.eqb]. fold (at_slot seed pre x rest).
  rewrite !assign_at_slot. cbn [at_slot beeps_idx]. 
  fold (at_slot seed pre (set_freq (PulseBeep.freq s) x) rest). rewrite assign_at_slot.
  cbn [at_slot beeps_idx].
  fold (at_slot seed pre (set_att (PulseBeep.att s) (set_freq (PulseBeep.freq s) x)) rest).
  rewrite assign_at_slot. cbn [at_slot beeps_idx].
  fold (at_slot seed pre
          (set_len (PulseBeep.len s)
             (set_att (PulseBeep.att s) (set_freq (PulseBeep.freq s) x))) rest).
  rewrite assign_at_slot. done.
Qed.

(** On a slot with a frequency they fill the next slot. *)
Lemma group_on_used_slot s os seed pre x y rest :
  PulseBeep.freq x ≠ 0 →
  getopt_loop (group s ++ os) (at_slot seed pre x (y :: rest))
  = getopt_loop os (at_slot seed (pre ++ [x]) (PulseBeep.set_next s (PulseBeep.next y)) rest).
Proof.
  intros Hx. unfold group. cbn [app getopt_loop handle].
  cbn [at_slot beeps beeps_idx]. rewrite list_lookup_middle by done.
  destruct (Z.eqb_spec (PulseBeep.freq x) 0) as [|_]; [done|].
  fold (at_slot seed pre x (y :: rest)).
  rewrite (assign_cursor _ _ _ (at_slot seed (pre ++ [x]) y rest))
    by (unfold at_slot; simpl; by rewrite <- app_assoc).
  replace (S (length pre)) with (length (pre ++ [x])) by (rewrite length_app; simpl; lia).
  rewrite assign_at_slot. cbn [at_slot beeps_idx].
  fold (at_slot seed (pre ++ [x]) (set_freq (PulseBeep.freq s) y) rest).
  rewrite assign_at_slot. cbn [at_slot beeps_idx].
  fold (at_slot seed (pre ++ [x])
          (set_att (PulseBeep.att s) (set_freq (PulseBeep.freq s) y)) rest).
  rewrite assign_at_slot. cbn [at_slot beeps_idx].
  fold (at_slot seed (pre ++ [x])
          (set_len (PulseBeep.len s)
             (set_att (PulseBeep.att s) (set_freq (PulseBeep.freq s) y))) rest).
  rewrite assign_at_slot. done.
Qed.

(** And when no slot is left they leave the array. *)
Lemma group_past_last_slot s os seed pre x :
  PulseBeep.freq x ≠ 0 →
  getopt_loop (group s ++ os) (at_slot seed pre x []) = OutOfArray.
Proof.
  intros Hx. unfold group. cbn [app getopt_loop handle].
  cbn [at_slot beeps beeps_idx]. rewrite list_lookup_middle by done.
  destruct (Z.eqb_spec (PulseBeep.freq x) 0) as [|_]; [done|].
  unfold assign at 1. unfold at_slot. cbn [beeps].
  rewrite lookup_ge_None_2 by (rewrite length_app; simpl; lia). done.
Qed.

(** *** Sources from options *)

Lemma set_next_zero s : PulseBeep.next s = 0 → PulseBeep.set_next s 0 = s.
Proof. destruct s. simpl. by intros ->. Qed.

(** After the options of the sources [pre ++ [x]], these fill the first
    slots and [beeps_idx] is at [x]. *)
Lemma groups_fill_slots : ∀ pre x,
  Forall audible (pre ++ [x]) → (length pre < BEEPS)%nat →
  getopt_loop ((pre ++ [x]) ≫= group) initial
  = Parsed (at_slot 1 pre x (replicate (BEEPS - 1 - length pre) zero_beep)).
Proof.
  induction pre as [|x' pre IH] using rev_ind; intros x Hx Hlen.
  - apply Forall_singleton in Hx as [_ Hnext].
    change (([] ++ [x]) ≫= group) with (group x ++ []).
    change initial with (at_slot 1 [] zero_beep (replicate (BEEPS - 1) zero_beep)).
    rewrite group_on_silent_slot by done.
    change (PulseBeep.next zero_beep) with 0. by rewrite set_next_zero.
  - rewrite Forall_app, Forall_singleton in Hx. destruct Hx as [Hpre [_ Hnext]].
    rewrite length_app in Hlen. simpl length in Hlen.
    rewrite bind_app, bind_singleton, getopt_loop_app, IH by (done || lia).
    pose proof Hpre as Hx'. rewrite Forall_app, Forall_singleton in Hx'.
    destruct Hx' as [_ [Hfreq _]].
    replace (BEEPS - 1 - length pre)%nat with (S (BEEPS - 1 - length (pre ++ [x'])))
      by (rewrite length_app; simpl length; unfold BEEPS in *; lia).
    rewrite replicate_S. rewrite <- (app_nil_r (group x)).
    rewrite group_on_used_slot by done.
    change (PulseBeep.next zero_beep) with 0. by rewrite set_next_zero.
Qed.

Lemma configured_at_slot seed pre x rest : configured (at_slot seed pre x rest) = pre ++ [x].
Proof.
  unfold configured, at_slot. simpl.
  rewrite (cons_middle x pre rest), app_assoc.
  apply take_app_length'. rewrite length_app. simpl. lia.
Qed.

(** X6. The options [-f F -a A -l L -i I], once for each of 1 to 32
    sources with frequencies other than 0, give exactly these sources, in
    order, and leave the seed at 1: the scheduler then runs over them with
    the generator seeded by 1. *)
Theorem options_describe_sources RAND_MAX rand_after fuel srcs :
  srcs ≠ [] → (length srcs ≤ BEEPS)%nat → Forall audible srcs →
  ∃ a, parse (srcs ≫= group) false = Parsed a
    ∧ configured a = srcs ∧ rand_seed a = 1
    ∧ pulse_beep RAND_MAX rand_after fuel (srcs ≫= group)
      = Some (PulseBeep.schedule RAND_MAX (rand_after 1) fuel srcs).
Proof.
  intros Hne Hlen Hok.
  destruct srcs as [|x pre _] using rev_ind; [done|].
  rewrite length_app in Hlen. simpl length in Hlen.
  pose proof (groups_fill_slots pre x Hok ltac:(lia)) as Hloop.
  eexists. unfold pulse_beep, parse. rewrite Hloop.
  split_and!; try done.
  - apply configured_at_slot.
  - by rewrite configured_at_slot.
Qed.

Lemma options_describe_sources_witness :
  ∃ a, parse (PulseBeep.three_beeps ≫= group) false = Parsed a
    ∧ configured a = PulseBeep.three_beeps ∧ rand_seed a = 1
    ∧ pulse_beep 2147483647 (λ _ _, 12345) 14 (PulseBeep.three_beeps ≫= group)
      = Some (PulseBeep.schedule 2147483647 (λ _, 12345) 14 PulseBeep.three_beeps).
Proof.
  apply (options_describe_sources 2147483647 (λ _ _, 12345) 14 PulseBeep.three_beeps).
  - done.
  - unfold BEEPS. simpl. lia.
  - unfold PulseBeep.three_beeps, audible. repeat constructor; simpl; lia.
Defined.

(** X7. The options of more than 32 sources with frequencies other than 0
    lead to an access outside [beeps]: nothing checks [beeps_idx] against
    the 32 slots. *)
Theorem too_many_sources_leave_the_array srcs extra_arguments :
  Forall audible srcs → (BEEPS < length srcs)%nat →
  parse (srcs ≫= group) extra_arguments = OutOfArray.
Proof.
  intros Hok Hlen. rewrite <- (take_drop BEEPS srcs) in Hok |- *.
  rewrite Forall_app in Hok. destruct Hok as [Hfirst Hrest].
  assert (length (take BEEPS srcs) = BEEPS) as Htake by (rewrite length_take; lia).
  destruct (take BEEPS srcs) as [|x pre _] using rev_ind; [done|].
  rewrite length_app in Htake. simpl length in Htake.
  destruct (drop BEEPS srcs) as [|s tl] eqn:Hdrop.
  { apply (f_equal length) in Hdrop. rewrite length_drop in Hdrop. simpl in Hdrop. lia. }
  unfold parse. rewrite bind_app, getopt_loop_app, groups_fill_slots by (done || lia).
  replace (BEEPS - 1 - length pre)%nat with 0%nat by (unfold BEEPS in *; lia).
  rewrite bind_cons. simpl replicate.
  apply Forall_app in Hfirst as [_ Hx]. apply Forall_singleton in Hx as [Hfreq _].
  by rewrite group_past_last_slot.
Qed.

Lemma too_many_sources_leave_the_array_witness :
  parse (replicate 33 (PulseBeep.source 1000 0 14 4000) ≫= group) false = OutOfArray.
Proof.
  apply too_many_sources_leave_the_array.
  - apply Forall_replicate. unfold audible. simpl. lia.
  - unfold BEEPS. simpl. lia.
Defined.

(** X8. A source given with the frequency 0 is replaced by the source
    that the next [-f] starts: its slot is used again, and every option of
    the new source overwrites one of its own. *)
Theorem silent_source_is_replaced srcs z s os extra_arguments :
  Forall audible srcs → (length srcs < BEEPS)%nat → PulseBeep.freq z = 0 →
  parse ((srcs ≫= group) ++ group z ++ group s ++ os) extra_arguments
  = parse ((srcs ≫= group) ++ group s ++ os) extra_arguments.
Proof.
  intros Hok Hlen Hz. unfold parse. f_equal.
  destruct srcs as [|x pre _] using rev_ind.
  - change ([] ≫= group) with (@nil option_t). rewrite !app_nil_l.
    change initial with (at_slot 1 [] zero_beep (replicate (BEEPS - 1) zero_beep)).
    rewrite !group_on_silent_slot by done. done.
  - rewrite length_app in Hlen. simpl length in Hlen.
    rewrite !getopt_loop_app, groups_fill_slots by (done || lia).
    apply Forall_app in Hok as [_ Hx]. apply Forall_singleton in Hx as [Hfreq _].
    replace (BEEPS - 1 - length pre)%nat with (S (BEEPS - 2 - length pre))
      by (unfold BEEPS in *; lia).
    rewrite replicate_S.
    rewrite (group_on_used_slot z) by done.
    rewrite group_on_silent_slot by done.
    rewrite (group_on_used_slot s) by done. done.
Qed.

Lemma silent_source_is_replaced_witness :
  parse (([PulseBeep.source 1000 0 14 4000] ≫= group)
           ++ group (PulseBeep.source 0 3 7 9) ++ group (PulseBeep.source 2000 0 5 3000) ++ [])
        false
  = parse (([PulseBeep.source 1000 0 14 4000] ≫= group)
             ++ group (PulseBeep.source 2000 0 5 3000) ++ []) false.
Proof.
  apply silent_source_is_replaced.
  - repeat constructor; simpl; lia.
  - unfold BEEPS. simpl. lia.
  - reflexivity.
Defined.

(** *** Inside the array *)

(** After [n] options [-f]: the array is whole, at most [n] slots are in
    use, and [beeps_idx] is below [n], or 0. *)
Definition after_f (n : nat) (a : args) : Prop :=
  length (beeps a) = BEEPS ∧ (used a ≤ n)%nat ∧ (beeps_idx a ≤ n - 1)%nat.

Lemma assign_same_freq n f a :
  (∀ p, PulseBeep.freq (f p) = PulseBeep.freq p) →
  (n ≤ BEEPS)%nat → after_f n a →
  ∃ a', assign (beeps_idx a) f a = Parsed a' ∧ after_f n a'.
Proof.
  intros Hf Hn (Hlen & Hused & Hidx). unfold assign.
  destruct (beeps a !! beeps_idx a) as [p|] eqn:Hp.
  - eexists. split; [done|]. unfold after_f, used in *. simpl.
    rewrite length_insert, list_lookup_insert_eq by (by eapply lookup_lt_Some).
    rewrite Hp in Hused. by rewrite Hf.
  - apply lookup_ge_None in Hp. unfold BEEPS in *. lia.
Qed.

Lemma handle_within n o a :
  (n + count_f [o] ≤ BEEPS)%nat → after_f n a →
  match handle o a with
  | Parsed a' => after_f (n + count_f [o]) a'
  | Exit _ => True
  | OutOfArray => False
  end.
Proof.
  intros Hn Ha. pose proof Ha as (Hlen & Hused & Hidx).
  destruct o; simpl in *; try done.
  - (* -f *)
    destruct (beeps a !! beeps_idx a) as [p|] eqn:Hp.
    + unfold used in Hused. rewrite Hp in Hused.
      set (idx := if PulseBeep.freq p =? 0 then beeps_idx a else S (beeps_idx a)) in *.
      unfold assign.
      destruct (beeps a !! idx) as [q|] eqn:Hq.
      * unfold after_f, used. simpl.
        rewrite length_insert, list_lookup_insert_eq by (by eapply lookup_lt_Some).
        split_and!; [done| |lia]. simpl. destruct (v =? 0); lia.
      * apply lookup_ge_None in Hq. unfold BEEPS in *. lia.
    + apply lookup_ge_None in Hp. unfold BEEPS in *. lia.
  - (* -a *)
    destruct (assign_same_freq n (set_att v) a) as (a' & -> & Ha');
      [done|unfold BEEPS in *; lia|done|]. by rewrite Nat.add_0_r.
  - (* -l *)
    destruct (assign_same_freq n (set_len v) a) as (a' & -> & Ha');
      [done|unfold BEEPS in *; lia|done|]. by rewrite Nat.add_0_r.
  - (* -i *)
    destruct (assign_same_freq n (set_intv v) a) as (a' & -> & Ha');
      [done|unfold BEEPS in *; lia|done|]. by rewrite Nat.add_0_r.
  - (* -S *) by rewrite Nat.add_0_r.
  - (* the renderer's options *) by rewrite Nat.add_0_r.
Qed.

Lemma count_f_cons o os : count_f (o :: os) = (count_f [o] + count_f os)%nat.
Proof. by destruct o. Qed.

Lemma getopt_loop_within os : ∀ n a,
  (n + count_f os ≤ BEEPS)%nat → after_f n a →
  match getopt_loop os a with
  | Parsed a' => after_f (n + count_f os) a'
  | Exit _ => True
  | OutOfArray => False
  end.
Proof.
  induction os as [|o os IH]; intros n a Hn Ha.
  - simpl. by rewrite Nat.add_0_r.
  - rewrite count_f_cons in Hn |- *. cbn [getopt_loop].
    pose proof (handle_within n o a ltac:(lia) Ha) as Hh.
    destruct (handle o a) as [a'| |]; try done.
    rewrite Nat.add_assoc. apply IH; [|done].
    rewrite <- Nat.add_assoc. exact Hn.
Qed.

(** X9. Whatever the options and their order, with at most 32 options
    [-f] among them no access leaves [beeps]; unless the program exits,
    it is left with at least one source (also without any [-f]) and with
    no more sources than there were options [-f]. *)
Theorem at_most_32_f_stay_in_the_array os extra_arguments :
  (count_f os ≤ BEEPS)%nat → within_array (count_f os) (parse os extra_arguments).
Proof.
  intros Hn. unfold parse.
  pose proof (getopt_loop_within os 0 initial Hn) as Hl.
  destruct (getopt_loop os initial) as [a| |]; [|done|].
  - destruct Hl as (Hlen & Hused & Hidx).
    { unfold after_f, initial, used. simpl. split_and!; [done|lia|lia]. }
    destruct extra_arguments; [done|]. unfold within_array.
    assert (beeps_idx a < BEEPS)%nat as Hlt by (unfold BEEPS in *; lia).
    split_and!; try done; unfold configured; rewrite length_take, Hlen; lia.
  - apply Hl. unfold after_f, initial, used. simpl. split_and!; [done|lia|lia].
Qed.

Lemma at_most_32_f_stay_in_the_array_witness :
  within_array 2 (parse [Opt_l 14; Opt_f 1000; Opt_render; Opt_f 0; Opt_i 4000; Opt_S 7] false).
Proof.
  apply (at_most_32_f_stay_in_the_array
           [Opt_l 14; Opt_f 1000; Opt_render; Opt_f 0; Opt_i 4000; Opt_S 7] false).
  unfold BEEPS. simpl. lia.
Defined.

End BeepOptionsFacts.

(* ===================================================================== *)
(** ** sdr_mix: properties of the options and of whole runs *)
(* ===================================================================== *)

Module MixMainFacts.
Import MixMain.

Lemma mix_getopt_loop_app os1 os2 : ∀ a,
  getopt_loop (os1 ++ os2) a =
  match getopt_loop os1 a with
  | Parsed a' => getopt_loop os2 a'
  | r => r
  end.
Proof.
  induction os1 as [|o os1 IH]; intros a; simpl; [done|].
  destruct (handle o a); [apply IH|done..].
Qed.

Lemma handle_g_at_slot g n w pre x rest :
  handle (Opt_g g) (at_slot n w pre x rest)
  = Parsed (at_slot n w pre {| path := path x; gain := g |} rest).
Proof.
  unfold handle, at_slot. simpl. rewrite list_lookup_middle by done.
  rewrite insert_app_r_alt by done. by rewrite Nat.sub_diag.
Qed.

(** [-r] on a slot without path fills that slot. *)
Lemma handle_r_on_free_slot p n w pre x rest :
  path x = None →
  handle (Opt_r p) (at_slot n w pre x rest)
  = Parsed (at_slot n w pre {| path := Some p; gain := 1 |} rest).
Proof.
  intros Hx. unfold handle, at_slot. simpl. rewrite list_lookup_middle by done.
  rewrite Hx. rewrite list_lookup_middle by done.
  rewrite insert_app_r_alt by done. by rewrite Nat.sub_diag.
Qed.

(** On a slot with a path it fills the next slot. *)
Lemma handle_r_on_used_slot p n w pre x y rest :
  path x ≠ None →
  handle (Opt_r p) (at_slot n w pre x (y :: rest))
  = Parsed (at_slot n w (pre ++ [x]) {| path := Some p; gain := 1 |} rest).
Proof.
  intros Hx. unfold handle, at_slot. simpl. rewrite list_lookup_middle by done.
  destruct (path x) as [q|]; [|done].
  rewrite (cons_middle x pre (y :: rest)), app_assoc.
  replace (S (length pre)) with (length (pre ++ [x])) by (rewrite length_app; simpl; lia).
  rewrite list_lookup_middle by done.
  rewrite insert_app_r_alt by done. by rewrite Nat.sub_diag.
Qed.

(** And when no slot is left it leaves the array. *)
Lemma handle_r_past_last_slot p n w pre x :
  path x ≠ None → handle (Opt_r p) (at_slot n w pre x []) = OutOfArray.
Proof.
  intros Hx. unfold handle, at_slot. simpl. rewrite list_lookup_middle by done.
  destruct (path x) as [q|]; [|done].
  rewrite lookup_ge_None_2 by (rewrite length_app; simpl; lia). done.
Qed.

Lemma group_on_free_slot s os n w pre x rest :
  path x = None →
  getopt_loop (group s ++ os) (at_slot n w pre x rest)
  = getopt_loop os (at_slot n w pre (named s) rest).
Proof.
  intros Hx. destruct s as [p [g|]]; cbn [group app getopt_loop].
  - rewrite handle_r_on_free_slot by done. by rewrite handle_g_at_slot.
  - by rewrite handle_r_on_free_slot by done.
Qed.

Lemma group_on_next_slot s os n w pre x y rest :
  path x ≠ None →
  getopt_loop (group s ++ os) (at_slot n w pre x (y :: rest))
  = getopt_loop os (at_slot n w (pre ++ [x]) (named s) rest).
Proof.
  intros Hx. destruct s as [p [g|]]; cbn [group app getopt_loop].
  - rewrite handle_r_on_used_slot by done. by rewrite handle_g_at_slot.
  - by rewrite handle_r_on_used_slot by done.
Qed.

Lemma group_past_last s os n w pre x :
  path x ≠ None → getopt_loop (group s ++ os) (at_slot n w pre x []) = OutOfArray.
Proof.
  intros Hx. destruct s as [p [g|]]; cbn [group app getopt_loop];
    by rewrite handle_r_past_last_slot.
Qed.

(** After the options of the inputs [pre ++ [x]], these fill the first
    slots and [inputs_idx] is at the last of them. *)
Lemma mix_groups_fill_slots : ∀ pre x,
  (length pre < INPUTS)%nat →
  getopt_loop ((pre ++ [x]) ≫= group) initial
  = Parsed (at_slot DEFAULT_FRAME_SIZE None (named <$> pre) (named x)
                    (replicate (INPUTS - 1 - length pre) zero_input)).
Proof.
  induction pre as [|x' pre IH] using rev_ind; intros x Hlen.
  - change (([] ++ [x]) ≫= group) with (group x ++ []).
    change initial with (at_slot DEFAULT_FRAME_SIZE None [] zero_input
                                 (replicate (INPUTS - 1) zero_input)).
    by rewrite group_on_free_slot.
  - rewrite length_app in Hlen. simpl length in Hlen.
    rewrite bind_app, bind_singleton, mix_getopt_loop_app, IH by lia.
    replace (INPUTS - 1 - length pre)%nat with (S (INPUTS - 1 - length (pre ++ [x'])))
      by (rewrite length_app; simpl length; unfold INPUTS in *; lia).
    rewrite replicate_S. rewrite <- (app_nil_r (group x)).
    rewrite group_on_next_slot by done.
    by rewrite fmap_app.
Qed.

Lemma mix_configured_at_slot n w pre x rest : configured (at_slot n w pre x rest) = pre ++ [x].
Proof.
  unfold configured, at_slot. simpl.
  rewrite (cons_middle x pre rest), app_assoc.
  apply take_app_length'. rewrite length_app. simpl. lia.
Qed.

(** X15. The options [-r path], each followed by [-g gain] or not, for 1
    to 32 inputs give exactly these inputs, in order: an input without
    [-g] has the gain 1.0, for which the mixer takes the path without the
    product.  The block size stays 0x40000 and no output is named. *)
Theorem options_describe_inputs srcs :
  srcs ≠ [] → (length srcs ≤ INPUTS)%nat →
  ∃ a, getopt_loop (srcs ≫= group) initial = Parsed a
    ∧ configured a = named <$> srcs
    ∧ frame_size a = DEFAULT_FRAME_SIZE ∧ wr_path a = None.
Proof.
  intros Hne Hlen.
  destruct srcs as [|x pre _] using rev_ind; [done|].
  rewrite length_app in Hlen. simpl length in Hlen.
  eexists. rewrite mix_groups_fill_slots by lia.
  split_and!; try done.
  by rewrite mix_configured_at_slot, fmap_app.
Qed.

Lemma options_describe_inputs_witness :
  ∃ a, getopt_loop ([("a.cu8", None); ("b.cu8", Some 0.5%float)]%string ≫= group) initial
       = Parsed a
    ∧ configured a = named <$> [("a.cu8", None); ("b.cu8", Some 0.5%float)]%string
    ∧ frame_size a = DEFAULT_FRAME_SIZE ∧ wr_path a = None.
Proof.
  apply (options_describe_inputs [("a.cu8", None); ("b.cu8", Some 0.5%float)]%string).
  - done.
  - unfold INPUTS. simpl. lia.
Defined.

(** X16. More than 32 inputs lead to an access outside [inputs]: nothing
    checks [inputs_idx] against the 32 slots. *)
Theorem too_many_inputs_leave_the_array fsys can_create fuel srcs extra_arguments :
  (INPUTS < length srcs)%nat →
  main fsys can_create fuel (srcs ≫= group) extra_arguments = Undefined.
Proof.
  intros Hlen. rewrite <- (take_drop INPUTS srcs).
  assert (length (take INPUTS srcs) = INPUTS) as Htake by (rewrite length_take; lia).
  destruct (take INPUTS srcs) as [|x pre _] using rev_ind; [done|].
  rewrite length_app in Htake. simpl length in Htake.
  destruct (drop INPUTS srcs) as [|s tl] eqn:Hdrop.
  { apply (f_equal length) in Hdrop. rewrite length_drop in Hdrop. simpl in Hdrop. lia. }
  unfold main. rewrite bind_app, mix_getopt_loop_app, mix_groups_fill_slots by lia.
  replace (INPUTS - 1 - length pre)%nat with 0%nat by (unfold INPUTS in *; lia).
  rewrite bind_cons. simpl replicate.
  rewrite group_past_last; [done|by destruct x].
Qed.

Lemma too_many_inputs_leave_the_array_witness :
  main no_files (λ _, true) 1 (replicate 33 ("a.cu8"%string, None) ≫= group) false = Undefined.
Proof.
  apply too_many_inputs_leave_the_array. unfold INPUTS. simpl. lia.
Defined.

(** *** Gains before the first input *)

Lemma gains_on_free_slot gs : ∀ n w pre x rest,
  path x = None →
  ∃ g, getopt_loop (Opt_g <$> gs) (at_slot n w pre x rest)
       = Parsed (at_slot n w pre {| path := None; gain := g |} rest).
Proof.
  induction gs as [|g gs IH]; intros n w pre x rest Hx.
  - exists (gain x). simpl. destruct x. simpl in Hx. by subst.
  - cbn [fmap list_fmap getopt_loop]. rewrite handle_g_at_slot. by apply IH.
Qed.

(** X17. Gains given before the first [-r] are lost: [-g] sets the gain of
    the slot at [inputs_idx], and the first [-r] fills that same slot and
    sets its gain to 1.0. *)
Theorem gains_before_the_first_input_are_lost fsys can_create fuel gs p os extra_arguments :
  main fsys can_create fuel ((Opt_g <$> gs) ++ Opt_r p :: os) extra_arguments
  = main fsys can_create fuel (Opt_r p :: os) extra_arguments.
Proof.
  unfold main. rewrite mix_getopt_loop_app.
  change initial with (at_slot DEFAULT_FRAME_SIZE None [] zero_input
                               (replicate (INPUTS - 1) zero_input)).
  destruct (gains_on_free_slot gs DEFAULT_FRAME_SIZE None [] zero_input
              (replicate (INPUTS - 1) zero_input) eq_refl) as [g ->].
  cbn [getopt_loop]. by rewrite !handle_r_on_free_slot.
Qed.

(** *** Without inputs *)

Lemma handle_without_r o a :
  count_r [o] = 0%nat → used a = 0%nat →
  match handle o a with
  | Parsed a' => used a' = 0%nat
  | Exit _ => True
  | OutOfArray => False
  end.
Proof.
  unfold used. intros Ho Ha.
  destruct (inputs a !! inputs_idx a) as [[[q|] g]|] eqn:Hc; try done.
  destruct o; simpl in *; try done; try (by rewrite Hc).
  rewrite Hc. simpl. rewrite list_lookup_insert_eq by (by eapply lookup_lt_Some). done.
Qed.

Lemma count_r_cons o os : count_r (o :: os) = (count_r [o] + count_r os)%nat.
Proof. by destruct o. Qed.

Lemma getopt_loop_without_r os : ∀ a,
  count_r os = 0%nat → used a = 0%nat →
  match getopt_loop os a with
  | Parsed a' => used a' = 0%nat
  | Exit _ => True
  | OutOfArray => False
  end.
Proof.
  induction os as [|o os IH]; intros a Hos Ha; [done|].
  rewrite count_r_cons in Hos. cbn [getopt_loop].
  pose proof (handle_without_r o a ltac:(lia) Ha) as Hh.
  destruct (handle o a) as [a'| |]; try done.
  apply IH; [lia|done].
Qed.

(** X18. Without an option [-r], whatever the other options and their
    order, [main] ends before it opens any file: with the usage text, or
    with "No inputs.". *)
Theorem without_inputs_nothing_is_opened fsys can_create fuel os extra_arguments :
  count_r os = 0%nat → opens_nothing (main fsys can_create fuel os extra_arguments).
Proof.
  intros Hos. unfold main.
  pose proof (getopt_loop_without_r os initial Hos eq_refl) as Hl.
  destruct (getopt_loop os initial) as [a| |]; try done.
  destruct extra_arguments; [done|].
  unfold used in Hl. unfold mix, configured.
  destruct (inputs a !! inputs_idx a) as [[[q|] g]|] eqn:Hc; try done.
  rewrite Hl in Hc |- *. destruct (inputs a) as [|c cs]; [done|].
  simpl in Hc. inversion Hc; subst. done.
Qed.

Lemma without_inputs_nothing_is_opened_witness :
  opens_nothing (main no_files (λ _, true) 1 [Opt_g 0.5; Opt_w "out.cu8"; Opt_b 4; Opt_v] false).
Proof.
  apply (without_inputs_nothing_is_opened no_files (λ _, true) 1
           [Opt_g 0.5; Opt_w "out.cu8"; Opt_b 4; Opt_v] false).
  reflexivity.
Defined.

(** *** Inside the array *)

Lemma handle_within_inputs n o a :
  (n + count_r [o] ≤ INPUTS)%nat → after_r n a →
  match handle o a with
  | Parsed a' => after_r (n + count_r [o]) a'
  | Exit _ => True
  | OutOfArray => False
  end.
Proof.
  intros Hn Ha. pose proof Ha as (Hlen & Hused & Hidx). unfold used in Hused.
  destruct (inputs a !! inputs_idx a) as [c|] eqn:Hc.
  2:{ apply lookup_ge_None in Hc. unfold INPUTS in *. lia. }
  destruct o; simpl in *; rewrite ?Nat.add_0_r; try done.
  - (* -r *)
    rewrite Hc.
    set (idx := match path c with Some _ => S (inputs_idx a) | None => inputs_idx a end).
    assert (idx ≤ n)%nat as Hidx' by (unfold idx; destruct c as [[q|] g]; simpl in *; lia).
    destruct (inputs a !! idx) as [y|] eqn:Hy.
    + unfold after_r, used. simpl.
      rewrite length_insert, list_lookup_insert_eq by (by eapply lookup_lt_Some).
      split_and!; [done|lia|lia].
    + apply lookup_ge_None in Hy. unfold INPUTS in *. lia.
  - (* -g *)
    rewrite Hc. unfold after_r, used. simpl.
    rewrite length_insert, list_lookup_insert_eq by (by eapply lookup_lt_Some).
    by destruct c as [[q|] g'].
Qed.

Lemma getopt_loop_within_inputs os : ∀ n a,
  (n + count_r os ≤ INPUTS)%nat → after_r n a →
  match getopt_loop os a with
  | Parsed a' => after_r (n + count_r os) a'
  | Exit _ => True
  | OutOfArray => False
  end.
Proof.
  induction os as [|o os IH]; intros n a Hn Ha.
  - simpl. by rewrite Nat.add_0_r.
  - rewrite count_r_cons in Hn |- *. cbn [getopt_loop].
    pose proof (handle_within_inputs n o a ltac:(lia) Ha) as Hh.
    destruct (handle o a) as [a'| |]; try done.
    rewrite Nat.add_assoc. apply IH; [|done].
    rewrite <- Nat.add_assoc. exact Hn.
Qed.

Lemma mix_defined fsys can_create fuel a :
  (inputs_idx a < length (inputs a))%nat → mix fsys can_create fuel a ≠ Undefined.
Proof.
  intros Hidx. unfold mix, configured.
  destruct (inputs a) as [|first rest]; [simpl in Hidx; lia|].
  rewrite firstn_cons.
  destruct (path first); [|done].
  destruct (open_inputs fsys 0 _); [done|].
  destruct (negb _); [done|]. destruct (open_output fsys _) as [j fsys1].
  destruct (bool_decide _); [done|].
  by destruct (SdrMix.mix_loop _ _ _ _ _).
Qed.

(** X19. Whatever the options and their order, with at most 32 options
    [-r] among them no access leaves [inputs], in the options and in the
    loops over [inputs[0 .. inputs_idx]]. *)
Theorem at_most_32_inputs_stay_in_the_array fsys can_create fuel os extra_arguments :
  (count_r os ≤ INPUTS)%nat → main fsys can_create fuel os extra_arguments ≠ Undefined.
Proof.
  intros Hn. unfold main.
  pose proof (getopt_loop_within_inputs os 0 initial Hn) as Hl.
  destruct (getopt_loop os initial) as [a| |]; [|done|].
  - destruct extra_arguments; [done|]. apply mix_defined.
    destruct Hl as (Hlen & Hused & Hidx).
    { unfold after_r, initial, used. simpl. split_and!; [done|lia|lia]. }
    rewrite Hlen. unfold INPUTS in *. lia.
  - exfalso. apply Hl. unfold after_r, initial, used. simpl. split_and!; [done|lia|lia].
Qed.

Lemma at_most_32_inputs_stay_in_the_array_witness :
  main no_files (λ _, true) 1 [Opt_g 0.5; Opt_r "a.cu8"; Opt_b 4; Opt_r "b.cu8"; Opt_g 2] false
  ≠ Undefined.
Proof.
  apply (at_most_32_inputs_stay_in_the_array no_files (λ _, true) 1
           [Opt_g 0.5; Opt_r "a.cu8"; Opt_b 4; Opt_r "b.cu8"; Opt_g 2] false).
  unfold INPUTS. simpl. lia.
Defined.

(** *** Whole runs *)

Lemma open_input_file fsys p i bs :
  names fsys !! p = Some i → contents fsys !! i = Some bs →
  open_input fsys p = Some (i, bs).
Proof. unfold open_input. intros -> . simpl. by intros ->. Qed.

(** Opening the output leaves every file but its own as it was, and
    every other path with its file; a new file is none of those that have
    bytes. *)
Lemma open_output_other fsys w j fsys1 :
  open_output fsys w = (j, fsys1) →
  names fsys1 !! w = Some j
  ∧ (∀ p, p ≠ w → names fsys1 !! p = names fsys !! p)
  ∧ (∀ k, k ≠ j → contents fsys1 !! k = contents fsys !! k)
  ∧ (∀ i, names fsys !! w ≠ Some i → is_Some (contents fsys !! i) → i ≠ j).
Proof.
  unfold open_output. destruct (names fsys !! w) as [j'|] eqn:Hw.
  - intros [= <- <-]. simpl. split_and!; try done.
    + intros k Hk. by rewrite lookup_insert_ne.
    + intros i Hi _. congruence.
  - intros [= <- <-]. simpl. split_and!.
    + by rewrite lookup_insert_eq.
    + intros p Hp. by rewrite lookup_insert_ne.
    + intros k Hk. by rewrite lookup_insert_ne.
    + intros i _ Hi ->.
      apply (is_fresh (dom (contents fsys) ∪ map_img (names fsys) : gset nat)).
      apply elem_of_union_l. by apply elem_of_dom.
Qed.

(** What the run leaves, once the loop has written [bs] to the output. *)
Lemma output_written fsys w j fsys1 bs :
  open_output fsys w = (j, fsys1) →
  holds {| names := names fsys1; contents := <[j := bs]> (contents fsys1) |} w bs
  ∧ only_output_changed w fsys
      {| names := names fsys1; contents := <[j := bs]> (contents fsys1) |}
  ∧ others_kept w fsys
      {| names := names fsys1; contents := <[j := bs]> (contents fsys1) |}.
Proof.
  intros (Hw & Hnames & Hcont & Hnew)%open_output_other. split_and!.
  - exists j. simpl. split; [done|]. by rewrite lookup_insert_eq.
  - split; simpl; [done|].
    intros k Hk. rewrite Hw in Hk.
    rewrite lookup_insert_ne by congruence. apply Hcont. congruence.
  - intros p i bs' Hp Hi Hbs. exists i. simpl.
    assert (i ≠ j) as Hij by (by apply Hnew).
    assert (p ≠ w) as Hpw by congruence.
    split; [by rewrite Hnames|].
    rewrite lookup_insert_ne by done. by rewrite Hcont.
Qed.

(** An output path that names the input's file under another name: the
    file is emptied before it is read, and the run is not followed. *)
Example output_that_names_the_input :
  main {| names := {[ "a.cu8"%string := 7%nat; "./a.cu8"%string := 7%nat ]};
          contents := {[ 7%nat := ["a"; "b"; "c"]%byte ]} |}
       (λ _, true) 3 [Opt_b 2; Opt_r "a.cu8"; Opt_w "./a.cu8"] false
  = Feedback.
Proof. vm_compute. reflexivity. Qed.

(** X20. [sdr_mix -b n -r A], with [-w W] or without: when [A] names a file,
    the output path does not name that same file (under this or another
    name) and can be opened, and the block size is at least 1, the run
    ends with "Done." and leaves the bytes of [A] in the file that the
    output path names, which is the path [-] when no [-w] is given; every
    other file, the input among them, is left as it was. *)
Theorem one_input_is_copied_to_the_output fsys can_create n A out i bs :
  names fsys !! A = Some i → contents fsys !! i = Some bs →
  names fsys !! default "-"%string out ≠ Some i →
  can_create (default "-"%string out) = true → (0 < n)%nat →
  ∃ fuel,
    leaves_in (main fsys can_create fuel (Opt_b n :: Opt_r A :: output_option out) false)
              fsys (default "-"%string out) bs.
Proof.
  intros HA Hi Hout Hcan Hn.
  destruct (SdrMixFacts.file_loop n Hn (length bs) bs [] (Nat.le_refl _))
    as (fuel & w' & Hl & Hw & Hd).
  exists fuel.
  assert (getopt_loop (Opt_b n :: Opt_r A :: output_option out) initial
          = Parsed (at_slot n out [] {| path := Some A; gain := 1 |}
                            (replicate (INPUTS - 1) zero_input))) as Hopt
    by (by destruct out).
  unfold main. rewrite Hopt. unfold mix. rewrite mix_configured_at_slot.
  cbn [app path open_inputs mbind option_bind].
  rewrite (open_input_file fsys A i bs HA Hi). cbn [at_slot wr_path].
  rewrite Hcan. cbn [negb].
  destruct (open_output fsys (default "-"%string out)) as [j fsys1] eqn:Hopen.
  pose proof (open_output_other _ _ _ _ Hopen) as (_ & _ & _ & Hnew).
  rewrite bool_decide_eq_false_2.
  2:{ cbn [fmap list_fmap fst]. rewrite list_elem_of_singleton.
      intros ->. by apply (Hnew i). }
  change (SdrMix.mix_loop fuel (frame_size _) _ _ _)
    with (SdrMix.mix_loop fuel n (SdrMix.unity 0) [] (SdrMix.file_world bs [])).
  rewrite Hl. cbv beta iota. rewrite Hw.
  destruct (output_written fsys _ j fsys1 bs Hopen) as (Hholds & Hrest & Hkept).
  by eexists _, _.
Qed.

Lemma one_input_is_copied_to_the_output_witness :
  ∃ fuel,
    leaves_in (main {| names := {[ "a.cu8"%string := 7%nat ]};
                       contents := {[ 7%nat := ["a"; "b"; "c"]%byte ]} |}
                    (λ _, true) fuel
                    (Opt_b 2 :: Opt_r "a.cu8" :: output_option None) false)
              {| names := {[ "a.cu8"%string := 7%nat ]};
                 contents := {[ 7%nat := ["a"; "b"; "c"]%byte ]} |}
              (default "-"%string None) ["a"; "b"; "c"]%byte.
Proof.
  apply (one_input_is_copied_to_the_output
           {| names := {[ "a.cu8"%string := 7%nat ]};
              contents := {[ 7%nat := ["a"; "b"; "c"]%byte ]} |}
           (λ _, true) 2 "a.cu8" None 7 ["a"; "b"; "c"]%byte).
  - apply lookup_singleton_eq.
  - apply lookup_singleton_eq.
  - simpl. by rewrite lookup_singleton_ne.
  - done.
  - lia.
Defined.

(** X21. [sdr_mix -b n -r A -g g0 -r B -g g1 -w W] with gains below 2^24
    in absolute value: when [A] and [B] name files, [W] names neither of
    these files (under this or another name) and can be opened, and the
    block size is at least 1, the run ends with "Done." and leaves in the
    file that [W] names the two files mixed offset by offset with their
    gains, as long as the longer of them; every other file is left as it
    was. *)
Theorem two_inputs_are_mixed_to_the_output fsys can_create n A B W g0 g1 iA iB a b :
  names fsys !! A = Some iA → contents fsys !! iA = Some a →
  names fsys !! B = Some iB → contents fsys !! iB = Some b →
  names fsys !! W ≠ Some iA → names fsys !! W ≠ Some iB →
  SdrMix.inside_int g0 → SdrMix.inside_int g1 →
  can_create W = true → (0 < n)%nat →
  ∃ fuel,
    leaves_in (main fsys can_create fuel
                    [Opt_b n; Opt_r A; Opt_g g0; Opt_r B; Opt_g g1; Opt_w W] false)
              fsys W (SdrMix.mix_files g0 g1 a b).
Proof.
  intros HA Ha HB Hb HWA HWB _ _ Hcan Hn.
  destruct (SdrMixFacts.two_files_loop n g0 g1 Hn _ a b [SdrMix.Data a] [SdrMix.Data b] []
              ltac:(by left) ltac:(by left) (Nat.le_refl _))
    as (fuel & w' & Hl & Hw & Hd).
  exists fuel.
  assert (getopt_loop [Opt_b n; Opt_r A; Opt_g g0; Opt_r B; Opt_g g1; Opt_w W] initial
          = Parsed (at_slot n (Some W) [{| path := Some A; gain := g0 |}]
                            {| path := Some B; gain := g1 |}
                            (replicate (INPUTS - 2) zero_input))) as Hopt by done.
  unfold main. rewrite Hopt. unfold mix. rewrite mix_configured_at_slot.
  cbn [app path open_inputs mbind option_bind].
  rewrite (open_input_file fsys A iA a HA Ha).
  cbn [open_inputs path mbind option_bind].
  rewrite (open_input_file fsys B iB b HB Hb).
  cbn [at_slot wr_path from_option id].
  rewrite Hcan. cbn [negb].
  destruct (open_output fsys W) as [j fsys1] eqn:Hopen.
  pose proof (open_output_other _ _ _ _ Hopen) as (_ & _ & _ & Hnew).
  rewrite bool_decide_eq_false_2.
  2:{ cbn [fmap list_fmap fst]. rewrite !elem_of_cons, elem_of_nil.
      intros [->|[->|[]]]; [by apply (Hnew iA)|by apply (Hnew iB)]. }
  change (SdrMix.mix_loop fuel (frame_size _) _ _ _)
    with (SdrMix.mix_loop fuel n {| SdrMix.fd := 0; SdrMix.gain := g0 |}
                          [{| SdrMix.fd := 1; SdrMix.gain := g1 |}]
                          (SdrMix.two_files [SdrMix.Data a] [SdrMix.Data b] [])).
  rewrite Hl. cbv beta iota. rewrite Hw.
  destruct (output_written fsys _ j fsys1 (SdrMix.mix_files g0 g1 a b) Hopen)
    as (Hholds & Hrest & Hkept).
  by eexists _, _.
Qed.

Lemma two_inputs_are_mixed_to_the_output_witness :
  ∃ fuel,
    leaves_in (main {| names := {[ "a.cu8"%string := 7%nat ]};
                       contents := {[ 7%nat := ["a"; "b"; "c"]%byte ]} |}
                    (λ _, true) fuel
                    [Opt_b 2; Opt_r "a.cu8"; Opt_g 1; Opt_r "a.cu8"; Opt_g 0.5;
                     Opt_w "out.cu8"] false)
              {| names := {[ "a.cu8"%string := 7%nat ]};
                 contents := {[ 7%nat := ["a"; "b"; "c"]%byte ]} |}
              "out.cu8" ["R"; "S"; "U"]%byte.
Proof.
  apply (two_inputs_are_mixed_to_the_output
           {| names := {[ "a.cu8"%string := 7%nat ]};
              contents := {[ 7%nat := ["a"; "b"; "c"]%byte ]} |}
           (λ _, true) 2 "a.cu8" "a.cu8" "out.cu8" 1 0.5 7 7
           ["a"; "b"; "c"]%byte ["a"; "b"; "c"]%byte).
  - apply lookup_singleton_eq.
  - apply lookup_singleton_eq.
  - apply lookup_singleton_eq.
  - apply lookup_singleton_eq.
  - cbn [names]. by rewrite lookup_singleton_ne.
  - cbn [names]. by rewrite lookup_singleton_ne.
  - reflexivity.
  - reflexivity.
  - done.
  - lia.
Defined.

End MixMainFacts.
